(** * security_scanner.py: the pattern classifier, embedded and verified

    A shallow embedding of [SecurityScanner.analyze_code], [analyze_url],
    [analyze_logs] and of the de-duplication loop of [print_results].

    Text is a Rocq [string]; a character is a code point below 256, read as
    Latin-1, so that [str.lower], [\s], [\w] and case-insensitive matching
    have their Python meaning on every value of the type.  Regular
    expressions are kept as syntax trees and run by a backtracking matcher
    that lists the possible ends of a match in the order in which Python's
    engine tries them. *)

From Stdlib Require Import Ascii NArith.
From stdpp Require Import gmap strings list pretty sorting.

Local Open Scope N_scope.
Local Open Scope nat_scope.

(** ** Python [str] operations *)

Module PyStr.

Definition ord (c : ascii) : N := N_of_ascii c.
Definition chr (n : N) : ascii := ascii_of_N n.

Definition newline : ascii := "010"%char.

Definition is_newline (c : ascii) : bool := bool_decide (c = newline).

(** [c.lower()] on Latin-1: A-Z and the accented capitals U+00C0-U+00DE
    (the multiplication sign U+00D7 apart) move up by 32. *)
Definition char_lower (c : ascii) : ascii :=
  let n := ord c in
  if ((65 <=? n) && (n <=? 90)
      || (192 <=? n) && (n <=? 222) && negb (n =? 215))%N
  then chr (n + 32) else c.

(** [s.lower()] *)
Fixpoint lower (s : string) : string :=
  match s with
  | EmptyString => EmptyString
  | String c s' => String (char_lower c) (lower s')
  end.

(** [s.startswith(p)] *)
Fixpoint startswith (s p : string) {struct p} : bool :=
  match p, s with
  | EmptyString, _ => true
  | String a p', String b s' => bool_decide (a = b) && startswith s' p'
  | String _ _, EmptyString => false
  end.

(** [sub in s] *)
Fixpoint contains (s sub : string) : bool :=
  startswith s sub
  || match s with
     | EmptyString => false
     | String _ s' => contains s' sub
     end.

(** [s.split('\n')]: never empty, one more piece than newlines. *)
Fixpoint split_newline (s : string) : list string :=
  match s with
  | EmptyString => [EmptyString]
  | String c s' =>
      if is_newline c then EmptyString :: split_newline s'
      else match split_newline s' with
           | l :: ls => String c l :: ls
           | [] => [String c EmptyString]
           end
  end.

(** [s[:n]] *)
Fixpoint take (n : nat) (s : string) : string :=
  match n, s with
  | S n', String c s' => String c (take n' s')
  | _, _ => EmptyString
  end.

(** [s[n:]] *)
Fixpoint drop (n : nat) (s : string) : string :=
  match n, s with
  | S n', String _ s' => drop n' s'
  | _, _ => s
  end.

(** [s.count('\n', 0, stop)] *)
Fixpoint count_newline (s : string) (stop : nat) : nat :=
  match stop, s with
  | S k, String c s' =>
      (if is_newline c then 1 else 0) + count_newline s' k
  | _, _ => 0
  end.

(** The line feed and the double quote, as one-character strings. *)
Definition nl : string := String newline EmptyString.
Definition dq : string := String "034"%char EmptyString.

(** [str(n)] for a non-negative [int]. *)
Definition str (n : nat) : string := pretty n.

(** [enumerate(l, start)] and [enumerate(l)] *)
Fixpoint enumerate_from {A} (start : nat) (l : list A) : list (nat * A) :=
  match l with
  | [] => []
  | x :: l' => (start, x) :: enumerate_from (S start) l'
  end.

Definition enumerate {A} (l : list A) : list (nat * A) :=
  enumerate_from 0 l.

End PyStr.

(** ** Regular expressions, as [re] runs them with [IGNORECASE] *)

Module Re.
Import PyStr.

(** One-character items. *)
Inductive cset :=
| Lit (c : ascii)           (* a literal character *)
| Dot                       (* [.]: anything but a newline *)
| Space                     (* [\s] *)
| In (cs : list ascii).     (* [[...]] *)

Inductive regex :=
| Eps
| One (k : cset)
| Star (k : cset) (greedy : bool)   (* [k*] and [k*?] *)
| Bnd                               (* [\b] *)
| Seq (r1 r2 : regex)
| Alt (r1 r2 : regex).

(** [\s] on Latin-1 (Unicode white space below 256). *)
Definition is_space (c : ascii) : bool :=
  let n := ord c in
  ((9 <=? n) && (n <=? 13) || (28 <=? n) && (n <=? 32)
   || (n =? 133) || (n =? 160))%N.

(** [\w] on Latin-1: alphanumeric in the Unicode sense, or underscore. *)
Definition is_word (c : ascii) : bool :=
  let n := ord c in
  ((48 <=? n) && (n <=? 57) || (65 <=? n) && (n <=? 90)
   || (97 <=? n) && (n <=? 122) || (n =? 95)
   || (n =? 170) || (n =? 178) || (n =? 179) || (n =? 181)
   || (n =? 185) || (n =? 186) || (188 <=? n) && (n <=? 190)
   || (192 <=? n) && (n <=? 214) || (216 <=? n) && (n <=? 246)
   || (248 <=? n))%N.

(** A literal matches a character when both lower-case to the same one. *)
Definition lit_match (c t : ascii) : bool :=
  bool_decide (char_lower t = char_lower c).

Definition cset_match (k : cset) (t : ascii) : bool :=
  match k with
  | Lit c => lit_match c t
  | Dot => negb (is_newline t)
  | Space => is_space t
  | In cs => existsb (λ c, lit_match c t) cs
  end.

(** A cursor: the character before it, if any, and the text after it. *)
Definition cursor : Type := option ascii * string.

Definition word_before (p : cursor) : bool :=
  match p.1 with Some c => is_word c | None => false end.
Definition word_after (p : cursor) : bool :=
  match p.2 with String c _ => is_word c | EmptyString => false end.
Definition at_boundary (p : cursor) : bool :=
  xorb (word_before p) (word_after p).

(** The ends of [k*] from a cursor, best first: a greedy star prefers the
    longest run, a lazy one the shortest. *)
Fixpoint star_ends (k : cset) (greedy : bool) (prev : option ascii)
    (s : string) : list cursor :=
  match s with
  | EmptyString => [(prev, EmptyString)]
  | String c s' =>
      if cset_match k c then
        if greedy then star_ends k greedy (Some c) s' ++ [(prev, s)]
        else (prev, s) :: star_ends k greedy (Some c) s'
      else [(prev, s)]
  end.

(** The ends of every way [r] matches at cursor [p], in the order in which
    backtracking finds them. *)
Fixpoint ends (r : regex) (p : cursor) : list cursor :=
  match r with
  | Eps => [p]
  | One k =>
      match p.2 with
      | String c s' => if cset_match k c then [(Some c, s')] else []
      | EmptyString => []
      end
  | Star k greedy => star_ends k greedy p.1 p.2
  | Bnd => if at_boundary p then [p] else []
  | Seq r1 r2 => ends r1 p ≫= ends r2
  | Alt r1 r2 => ends r1 p ++ ends r2 p
  end.

(** The length of the match [r] makes at [p], if it makes one. *)
Definition match_at (r : regex) (p : cursor) : option nat :=
  match ends r p with
  | e :: _ => Some (String.length p.2 - String.length e.2)
  | [] => None
  end.

(** [re.search]: the leftmost start at which [r] matches, with the length
    of the match; [start] counts the characters already passed. *)
Fixpoint search_from (r : regex) (prev : option ascii) (s : string)
    (start : nat) : option (nat * nat) :=
  match match_at r (prev, s) with
  | Some n => Some (start, n)
  | None =>
      match s with
      | EmptyString => None
      | String c s' => search_from r (Some c) s' (S start)
      end
  end.

Definition search (r : regex) (s : string) : option (nat * nat) :=
  search_from r None s 0.

(** [re.finditer]: the successive leftmost matches, each search resuming
    where the last match ended, as pairs of start offset and matched
    text.  [skip] counts the characters of the last match still to pass.
    After an empty match the scan moves on by one character; the pattern of
    [analyze_logs] takes four characters or more, so this case does not
    arise there. *)
Fixpoint finditer_from (r : regex) (prev : option ascii) (s : string)
    (start skip : nat) : list (nat * string) :=
  match skip with
  | S k =>
      match s with
      | EmptyString => []
      | String c s' => finditer_from r (Some c) s' (S start) k
      end
  | 0 =>
      match match_at r (prev, s) with
      | Some n =>
          (start, take n s) ::
          match s with
          | EmptyString => []
          | String c s' => finditer_from r (Some c) s' (S start) (pred n)
          end
      | None =>
          match s with
          | EmptyString => []
          | String c s' => finditer_from r (Some c) s' (S start) 0
          end
      end
  end.

Definition finditer (r : regex) (s : string) : list (nat * string) :=
  finditer_from r None s 0 0.

(** Builders for the pattern tables. *)
Fixpoint lit (s : string) : regex :=
  match s with
  | EmptyString => Eps
  | String c s' => Seq (One (Lit c)) (lit s')
  end.

Definition cat (rs : list regex) : regex := foldr Seq Eps rs.
Definition plus (k : cset) : regex := Seq (One k) (Star k true).
Definition opt (k : cset) : regex := Alt (One k) Eps.

End Re.


(** ** The scanner *)

Module Scanner.
Import PyStr Re.

(** A finding is a dictionary with the keys [type], [risk_level] and
    [description], and often [location] and [fix]. *)
Record finding := Finding {
  type : string;
  risk_level : string;
  description : string;
  location : option string;
  fix_ : option string
}.

Global Instance finding_eq_dec : EqDecision finding.
Proof. solve_decision. Defined.

(** *** The pattern tables, [self.patterns] *)

Definition sql_injection : list regex := [
  cat [lit "SELECT"; Star Dot true; lit "FROM"; Star Dot true; lit "WHERE"];
  cat [lit "INSERT"; plus Space; lit "INTO"];
  cat [lit "UPDATE"; Star Dot true; lit "SET"];
  cat [lit "DELETE"; plus Space; lit "FROM"];
  cat [lit "UNION"; plus Space; lit "SELECT"]
].

Definition xss : list regex := [
  cat [lit "<script"; Star Dot false; lit ">"];
  lit "javascript:";
  lit "onerror=";
  lit "onload=";
  lit "eval(";
  cat [Bnd;
       Alt (lit "document.write")
         (Alt (lit "innerHTML")
            (Alt (lit "outerHTML") (lit "insertAdjacentHTML")));
       Bnd]
].

Definition exposed_secrets : list regex := [
  cat [lit "api"; opt (In ["_"; "-"]%char); lit "key"];
  cat [lit "secret"; opt (In ["_"; "-"]%char); lit "key"];
  lit "password";
  cat [lit "aws"; opt (In ["_"; "-"]%char); lit "key"];
  lit "credentials"
].

Definition insecure_configs : list regex := [
  cat [lit "debug"; Star Space true; lit "="; Star Space true; lit "true"];
  lit "ALLOW_ALL_ORIGINS";
  lit "JWT_SECRET"
].

(** [any(re.search(pattern, line, re.I) for pattern in patterns)] *)
Definition any_search (patterns : list regex) (line : string) : bool :=
  existsb (λ pattern, bool_decide (is_Some (search pattern line))) patterns.

(** *** [analyze_code] *)

Definition sql_injection_finding (line_number : nat) : finding := {|
  type := "SQL Injection";
  risk_level := "Critical";
  description := "Potential SQL injection vulnerability detected. Raw SQL queries found without proper parameterization.";
  location := Some ("Line " +:+ str (line_number + 1));
  fix_ := Some ("Use parameterized queries or an ORM to prevent SQL injection:" +:+ nl +:+
                "cursor.execute(" +:+ dq +:+ "SELECT * FROM users WHERE id = %s" +:+ dq +:+ ", (user_id,))")
|}.

Definition xss_finding (line_number : nat) : finding := {|
  type := "Cross-Site Scripting (XSS)";
  risk_level := "High";
  description := "Potential XSS vulnerability. Unescaped user input could be executed as JavaScript.";
  location := Some ("Line " +:+ str (line_number + 1));
  fix_ := Some ("Escape all user input before rendering:" +:+ nl +:+
                "from html import escape" +:+ nl +:+
                "escaped_content = escape(user_input)")
|}.

Definition exposed_secrets_finding (line_number : nat) : finding := {|
  type := "Exposed Secrets";
  risk_level := "Critical";
  description := "Potential exposed secrets or credentials in code.";
  location := Some ("Line " +:+ str (line_number + 1));
  fix_ := Some ("Move sensitive data to environment variables:" +:+ nl +:+
                "import os" +:+ nl +:+
                "api_key = os.environ.get(" +:+ dq +:+ "API_KEY" +:+ dq +:+ ")")
|}.

Definition insecure_configs_finding (line_number : nat) : finding := {|
  type := "Security Misconfiguration";
  risk_level := "High";
  description := "Potential security misconfiguration detected.";
  location := Some ("Line " +:+ str (line_number + 1));
  fix_ := Some ("Ensure proper security configurations in production:" +:+ nl +:+
                "DEBUG = False" +:+ nl +:+
                "ALLOWED_HOSTS = [" +:+ dq +:+ "example.com" +:+ dq +:+ "]" +:+ nl +:+
                "CORS_ORIGIN_WHITELIST = [" +:+ dq +:+ "https://trusted-site.com" +:+ dq +:+ "]")
|}.

(** The four loops of [analyze_code], each appending to the list the
    loops before it have built. *)
Definition check_sql_injection (lines : list string)
    (vulnerabilities : list finding) : list finding :=
  foldl (λ vulnerabilities '(line_number, line),
    if any_search sql_injection line then
      if negb (contains (lower line) "parameterized")
         && negb (contains (lower line) "prepare")
      then vulnerabilities ++ [sql_injection_finding line_number]
      else vulnerabilities
    else vulnerabilities) vulnerabilities (enumerate lines).

Definition check_xss (lines : list string)
    (vulnerabilities : list finding) : list finding :=
  foldl (λ vulnerabilities '(line_number, line),
    if any_search xss line then
      if negb (contains (lower line) "escape")
         && negb (contains (lower line) "sanitize")
      then vulnerabilities ++ [xss_finding line_number]
      else vulnerabilities
    else vulnerabilities) vulnerabilities (enumerate lines).

Definition check_exposed_secrets (lines : list string)
    (vulnerabilities : list finding) : list finding :=
  foldl (λ vulnerabilities '(line_number, line),
    if any_search exposed_secrets line
    then vulnerabilities ++ [exposed_secrets_finding line_number]
    else vulnerabilities) vulnerabilities (enumerate lines).

Definition check_insecure_configs (lines : list string)
    (vulnerabilities : list finding) : list finding :=
  foldl (λ vulnerabilities '(line_number, line),
    if any_search insecure_configs line
    then vulnerabilities ++ [insecure_configs_finding line_number]
    else vulnerabilities) vulnerabilities (enumerate lines).

Definition analyze_code (code : string) : list finding :=
  let vulnerabilities := [] in
  let lines := split_newline code in
  let vulnerabilities := check_sql_injection lines vulnerabilities in
  let vulnerabilities := check_xss lines vulnerabilities in
  let vulnerabilities := check_exposed_secrets lines vulnerabilities in
  let vulnerabilities := check_insecure_configs lines vulnerabilities in
  vulnerabilities.

(** *** [analyze_logs] *)

(** [(?i)\.\..*?\.\..*?] *)
Definition traversal : regex :=
  cat [lit ".."; Star Dot false; lit ".."; Star Dot false].

Definition traversal_finding (logs : string) (start : nat) (group : string)
    : finding := {|
  type := "Directory Traversal";
  risk_level := "High";
  description := "Suspicious pattern detected in logs indicating potential directory traversal attack.";
  fix_ := Some "Implement input validation and WAF rules";
  location :=
    Some ("Line " +:+ str (count_newline logs start + 1) +:+ ": " +:+ group)
|}.

Definition analyze_logs (logs : string) : list finding :=
  foldl (λ vulnerabilities '(start, group),
    vulnerabilities ++ [traversal_finding logs start group])
    [] (finditer traversal logs).

(** *** The de-duplication loop of [print_results] *)

Definition unique_step (st : list finding * gset string) (vuln : finding)
    : list finding * gset string :=
  let '(unique_vulnerabilities, seen_types) := st in
  if decide (type vuln ∈ seen_types) then st
  else (unique_vulnerabilities ++ [vuln], seen_types ∪ {[type vuln]}).

Definition unique_vulnerabilities (vulnerabilities : list finding)
    : list finding :=
  (foldl unique_step ([], ∅) vulnerabilities).1.

(** *** [analyze_url] *)

(** What [requests.get] does: it returns a response, whose headers are a
    case-insensitive dictionary stored under lower-cased keys, or raises. *)
Inductive outcome :=
| Response (headers : gmap string (string * string))
| SSLError
| RequestException (e : string)     (* any other exception of [requests] *)
| OtherException (e : string).      (* anything [analyze_url] lets through *)

Inductive result :=
| Returns (vulnerabilities : list finding)
| Raises (e : string).

(** [header in headers] for a [CaseInsensitiveDict] *)
Definition header_in (header : string)
    (headers : gmap string (string * string)) : bool :=
  bool_decide (is_Some (headers !! lower header)).

Definition security_headers : list (string * string) := [
  ("Strict-Transport-Security", "Missing HSTS header");
  ("X-Content-Type-Options", "Missing X-Content-Type-Options header");
  ("X-Frame-Options", "Missing X-Frame-Options header");
  ("Content-Security-Policy", "Missing Content Security Policy")
].

Definition invalid_url_finding : finding := {|
  type := "Invalid URL";
  risk_level := "Low";
  description := "The provided URL is not valid.";
  location := None;
  fix_ := None
|}.

Definition missing_header_finding (header message : string) : finding := {|
  type := "Missing Security Headers";
  risk_level := "Medium";
  description := message;
  location := None;
  fix_ := Some ("Add the " +:+ header +:+ " header to your server responses")
|}.

Definition insecure_protocol_finding : finding := {|
  type := "Insecure Protocol";
  risk_level := "High";
  description := "Website is using HTTP instead of HTTPS";
  location := None;
  fix_ := Some "Implement HTTPS using a valid SSL/TLS certificate"
|}.

Definition ssl_error_finding : finding := {|
  type := "SSL/TLS Error";
  risk_level := "Critical";
  description := "SSL/TLS certificate validation failed";
  location := None;
  fix_ := Some "Ensure a valid SSL certificate is properly installed"
|}.

Definition connection_error_finding (e : string) : finding := {|
  type := "Connection Error";
  risk_level := "Low";
  description := "Error connecting to URL: " +:+ e;
  location := None;
  fix_ := None
|}.

Section Url.
(** The two library calls [analyze_url] makes: [validators.url], read
    for its truth value, and [requests.get(url, timeout=10,
    verify=True)]. *)
Variable validators_url : string → bool.
Variable requests_get : string → outcome.

(** The result comes with the list of the requests sent. *)
Definition analyze_url (url : string) : list string * result :=
  if negb (validators_url url) then ([], Returns [invalid_url_finding])
  else
    let vulnerabilities := [] in
    match requests_get url with
    | Response headers =>
        let vulnerabilities :=
          foldl (λ vulnerabilities '(header, message),
            if negb (header_in header headers)
            then vulnerabilities ++ [missing_header_finding header message]
            else vulnerabilities) vulnerabilities security_headers in
        let vulnerabilities :=
          if startswith url "http://"
          then vulnerabilities ++ [insecure_protocol_finding]
          else vulnerabilities in
        ([url], Returns vulnerabilities)
    | SSLError => ([url], Returns (vulnerabilities ++ [ssl_error_finding]))
    | RequestException e =>
        ([url], Returns (vulnerabilities ++ [connection_error_finding e]))
    | OtherException e => ([url], Raises e)
    end.
End Url.

End Scanner.


(** ** The vocabulary of the statements *)

Module Vocabulary.
Import PyStr Re Scanner.

(** The four passes of [analyze_code], in the order in which they run. *)
Inductive category := SqlInjection | Xss | ExposedSecrets | InsecureConfigs.

Global Instance category_eq_dec : EqDecision category.
Proof. solve_decision. Defined.

Definition categories : list category :=
  [SqlInjection; Xss; ExposedSecrets; InsecureConfigs].

Definition rank (c : category) : nat :=
  match c with
  | SqlInjection => 0
  | Xss => 1
  | ExposedSecrets => 2
  | InsecureConfigs => 3
  end.

Definition patterns (c : category) : list regex :=
  match c with
  | SqlInjection => sql_injection
  | Xss => xss
  | ExposedSecrets => exposed_secrets
  | InsecureConfigs => insecure_configs
  end.

(** The [type] a pass gives its findings. *)
Definition label (c : category) : string :=
  match c with
  | SqlInjection => "SQL Injection"
  | Xss => "Cross-Site Scripting (XSS)"
  | ExposedSecrets => "Exposed Secrets"
  | InsecureConfigs => "Security Misconfiguration"
  end.

Definition finding_of (c : category) (line_number : nat) : finding :=
  match c with
  | SqlInjection => sql_injection_finding line_number
  | Xss => xss_finding line_number
  | ExposedSecrets => exposed_secrets_finding line_number
  | InsecureConfigs => insecure_configs_finding line_number
  end.

(** The line matches a pattern of the category. *)
Definition matches (c : category) (line : string) : bool :=
  any_search (patterns c) line.

(** How many patterns of the category the line matches. *)
Definition matching_patterns (c : category) (line : string) : nat :=
  length (filter (λ pattern, is_Some (search pattern line)) (patterns c)).

(** The keyword test that guards the append in the first two passes. *)
Definition suppressed (c : category) (line : string) : bool :=
  match c with
  | SqlInjection =>
      contains (lower line) "parameterized" || contains (lower line) "prepare"
  | Xss => contains (lower line) "escape" || contains (lower line) "sanitize"
  | ExposedSecrets | InsecureConfigs => false
  end.

Definition reports (c : category) (line : string) : bool :=
  matches c line && negb (suppressed c line).

(** The 0-based numbers of the lines a pass reports, in loop order. *)
Definition hits (c : category) (lines : list string) : list nat :=
  (filter (λ p, reports c p.2 = true) (enumerate lines)).*1.

(** [f'Line {n}'] *)
Definition line_location (n : nat) : string := "Line " +:+ str n.

(** The findings of a list with a given [type] at a given 1-based line. *)
Definition findings_at (vulnerabilities : list finding) (ty : string)
    (n : nat) : list finding :=
  filter (λ f, type f = ty ∧ location f = Some (line_location n))
    vulnerabilities.

(** The findings of a list at a given 1-based line, of any [type]. *)
Definition findings_on_line (vulnerabilities : list finding) (n : nat)
    : list finding :=
  filter (λ f, location f = Some (line_location n)) vulnerabilities.


(** [f] is listed before [g] in the order of [analyze_code]: an earlier
    pass, or the same pass and a smaller line number. *)
Definition listed_before (f g : finding) : Prop :=
  ∃ c1 n1 c2 n2,
    type f = label c1 ∧ location f = Some (line_location n1) ∧
    type g = label c2 ∧ location g = Some (line_location n2) ∧
    (rank c1 < rank c2 ∨ c1 = c2 ∧ n1 < n2).

(** [v] stands in [l] with no finding of its [type] before it. *)
Definition first_of_its_type (l : list finding) (v : finding) : Prop :=
  ∃ i, l !! i = Some v ∧ ∀ j w, j < i → l !! j = Some w → type w ≠ type v.

(** The scheme of a URL: what stands before the first [://]. *)
Fixpoint url_scheme (url : string) : option string :=
  if startswith url "://" then Some EmptyString
  else match url with
       | EmptyString => None
       | String c url' => String c <$> url_scheme url'
       end.

(** The four headers [analyze_url] looks for. *)
Definition tracked_headers : list string :=
  ["Strict-Transport-Security"; "X-Content-Type-Options";
   "X-Frame-Options"; "Content-Security-Policy"].


(** How far the nearest [..] is, with no newline on the way. *)
Fixpoint gap (s : string) : option nat :=
  if startswith s ".." then Some 0
  else match s with
       | EmptyString => None
       | String c s' => if is_newline c then None else S <$> gap s'
       end.

(** [group] is what the traversal pattern matches at the start of [s]:
    [..], then characters [x] with no newline among them, up to the
    nearest [..] that follows. *)
Definition traversal_at (s group : string) : Prop :=
  ∃ x r, group = ".." +:+ x +:+ ".."
         ∧ s = group +:+ r
         ∧ contains x nl = false
         ∧ ∀ j, j < String.length x → startswith (drop (2 + j) s) ".." = false.

(** The signature in the words of the specification: [..], any
    characters, [..]. *)
Definition spec_signature_at (s group : string) : Prop :=
  ∃ x r, group = ".." +:+ x +:+ ".." ∧ s = group +:+ r.

(** A match ends before the next one starts. *)
Definition ends_before (m1 m2 : nat * string) : Prop :=
  m1.1 + String.length m1.2 ≤ m2.1.

(** [kw] occurs in [line] up to the case of the letters. *)
Definition ci_substring (kw line : string) : Prop :=
  ∃ a k b, line = a +:+ k +:+ b ∧ lower k = kw.

End Vocabulary.

(** ** Inputs used as examples *)

Module Examples.
Import PyStr Re Scanner.

(** [query = "SELECT * FROM users WHERE id=" + user_id] *)
Definition sql_query_line : string :=
  "query = " +:+ dq +:+ "SELECT * FROM users WHERE id=" +:+ dq +:+ " + user_id".

(** One line that two categories report. *)
Definition password_script_line : string := "password <script>".

(** Four lines: a prepared statement, an escaped script, a secret and a
    configuration switch, the last two with mitigation keywords on them. *)
Definition mitigated_code : string :=
  "cur.prepare('SELECT a FROM t WHERE b')" +:+ nl +:+
  "Sanitize('<script>')" +:+ nl +:+
  "password = prepare(escape(x))" +:+ nl +:+
  "DEBUG = True  # parameterized, sanitize".

(** Two SQL patterns and a mitigation keyword on one line. *)
Definition prepared_union_line : string :=
  "cur.prepare('SELECT a FROM t WHERE b UNION SELECT c FROM u')".

(** Two SQL patterns on one line. *)
Definition union_code : string :=
  "x" +:+ nl +:+ "SELECT a FROM t WHERE b UNION SELECT c FROM u WHERE d".

(** The log [a], [b], [..\/..\/etc], each line closed by a newline. *)
Definition traversal_log : string :=
  "a" +:+ nl +:+ "b" +:+ nl +:+ "..\/..\/etc" +:+ nl.

(** Two [..] with a newline between them. *)
Definition split_log : string := ".." +:+ nl +:+ "..".

(** A validator that asks for an http or https prefix and a network
    where every server answers without any header. *)
Definition prefix_validator (url : string) : bool :=
  startswith url "http://" || startswith url "https://".

Definition bare_network (url : string) : outcome := Response ∅.


End Examples.

(** ** The reports *)

Module Reporter.
Import PyStr Re Scanner.

(** [self.risk_colors] *)
Definition risk_colors : gmap string string :=
  <["Critical" := "#FF0000"]> (<["High" := "#FF00FF"]>
    (<["Medium" := "#FFFF00"]> (<["Low" := "#00FF00"]> ∅))).

(** *** The summary of [print_results] *)

(** [sum(1 for v in unique_vulnerabilities if v['risk_level'] == level)] *)
Definition risk_count (level : string) (unique_vulnerabilities : list finding)
    : nat :=
  sum_list ((λ _, 1) <$> filter (λ v, risk_level v = level) unique_vulnerabilities).

(** What [print_results] shows: nothing but the success message on an empty
    list ([None]), otherwise the total and the counts of Critical, High,
    Medium and Low among the de-duplicated findings. *)
Definition print_results (vulnerabilities : list finding)
    : option (nat * nat * nat * nat * nat) :=
  match vulnerabilities with
  | [] => None
  | _ =>
      let unique_vulnerabilities := unique_vulnerabilities vulnerabilities in
      let total_vulns := length unique_vulnerabilities in
      let critical := risk_count "Critical" unique_vulnerabilities in
      let high := risk_count "High" unique_vulnerabilities in
      let medium := risk_count "Medium" unique_vulnerabilities in
      let low := risk_count "Low" unique_vulnerabilities in
      Some (total_vulns, critical, high, medium, low)
  end.

(** *** [generate_bug_report] *)

(** [vuln.get(key, '')] for the two optional keys *)
Definition get_or_empty (field : option string) : string :=
  default EmptyString field.

Definition generate_bug_report (vulnerabilities : list finding) : string :=
  foldl (λ report vuln,
    let report := report +:+ ("## " +:+ type vuln +:+ nl) in
    let report := report +:+ ("**Risk Level:** " +:+ risk_level vuln +:+ nl) in
    let report := report +:+ ("**Description:** " +:+ description vuln +:+ nl) in
    let report := report +:+ ("**Recommended Fix:** " +:+ get_or_empty (fix_ vuln) +:+ nl) in
    let report :=
      report +:+ ("**Location:** " +:+ get_or_empty (location vuln) +:+ nl +:+ nl) in
    report) ("# Bug Report" +:+ nl +:+ nl) vulnerabilities.

(** *** [generate_html_report] *)

(** A value, or the [KeyError] a dictionary raises for a missing key. *)
Inductive keyed (A : Type) :=
| Value (a : A)
| KeyError (key : string).
Global Arguments Value {_} _.
Global Arguments KeyError {_} _.

(** The text before the findings; [current_time] is the date, formatted. *)
Definition html_head (current_time : string) : string :=
  nl +:+
  "        <!DOCTYPE html>" +:+ nl +:+
  "        <html>" +:+ nl +:+
  "        <head>" +:+ nl +:+
  "            <title>SHASTRA - Security Vulnerability Report</title>" +:+ nl +:+
  "            <style>" +:+ nl +:+
  "                body { font-family: Arial, sans-serif; margin: 20px; }" +:+ nl +:+
  "                h1, h2 { color: #333; }" +:+ nl +:+
  "                .risk-scale { display: flex; margin: 20px 0; }" +:+ nl +:+
  "                .risk-item { padding: 10px; margin-right: 10px; border-radius: 5px; }" +:+ nl +:+
  "                .critical { background-color: #FF0000; color: white; }" +:+ nl +:+
  "                .high { background-color: #FF00FF; color: white; }" +:+ nl +:+
  "                .medium { background-color: #FFFF00; color: black; }" +:+ nl +:+
  "                .low { background-color: #00FF00; color: black; }" +:+ nl +:+
  "                .vulnerability { border: 1px solid #ddd; padding: 15px; margin-bottom: 15px; border-radius: 5px; }" +:+ nl +:+
  "                .risk-label { display: inline-block; padding: 5px; border-radius: 3px; margin-bottom: 10px; }" +:+ nl +:+
  "                pre { background-color: #f5f5f5; padding: 10px; border-radius: 5px; overflow-x: auto; }" +:+ nl +:+
  "            </style>" +:+ nl +:+
  "        </head>" +:+ nl +:+
  "        <body>" +:+ nl +:+
  "            <h1>SHASTRA - Security Vulnerability Report</h1>" +:+ nl +:+
  "            <p>Generated on: " +:+
  current_time +:+
  "</p>" +:+ nl +:+
  "            " +:+ nl +:+
  "            <h2>Risk Scale</h2>" +:+ nl +:+
  "            <div class=" +:+ dq +:+ "risk-scale" +:+ dq +:+ ">" +:+ nl +:+
  "                <div class=" +:+ dq +:+ "risk-item critical" +:+ dq +:+ ">Critical</div>" +:+ nl +:+
  "                <div class=" +:+ dq +:+ "risk-item high" +:+ dq +:+ ">High</div>" +:+ nl +:+
  "                <div class=" +:+ dq +:+ "risk-item medium" +:+ dq +:+ ">Medium</div>" +:+ nl +:+
  "                <div class=" +:+ dq +:+ "risk-item low" +:+ dq +:+ ">Low</div>" +:+ nl +:+
  "            </div>" +:+ nl +:+
  "            " +:+ nl +:+
  "            <h2>Detected Vulnerabilities</h2>" +:+ nl +:+
  "        ".

(** The block of one finding up to its description. *)
Definition html_vulnerability (risk_level color risk type description : string)
    : string :=
  nl +:+
  "            <div class=" +:+ dq +:+ "vulnerability" +:+ dq +:+ ">" +:+ nl +:+
  "                <div class=" +:+ dq +:+ "risk-label " +:+
  risk_level +:+ dq +:+ " style=" +:+ dq +:+ "background-color: " +:+
  color +:+ "; color: " +:+
  (if bool_decide (risk_level ∈ ["medium"; "low"]) then "black" else "white") +:+
  ";" +:+ dq +:+ ">" +:+ nl +:+
  "                    " +:+
  risk +:+
  nl +:+
  "                </div>" +:+ nl +:+
  "                <h3>" +:+
  type +:+
  "</h3>" +:+ nl +:+
  "                <p><strong>Description:</strong> " +:+
  description +:+
  "</p>" +:+ nl +:+
  "            ".

Definition html_fix (fix_ : string) : string :=
  nl +:+
  "                <p><strong>Recommended Fix:</strong></p>" +:+ nl +:+
  "                <pre>" +:+
  fix_ +:+
  "</pre>" +:+ nl +:+
  "                ".

Definition html_location (location : string) : string :=
  nl +:+
  "                <p><strong>Location:</strong> " +:+
  location +:+
  "</p>" +:+ nl +:+
  "                ".

Definition html_tail : string :=
  nl +:+
  "        </body>" +:+ nl +:+
  "        </html>" +:+ nl +:+
  "        ".

(** The loop over the findings; [self.risk_colors[...]] raises when the
    risk level is not a key, and the report is lost. *)
Fixpoint html_vulnerabilities (vulnerabilities : list finding) (html : string)
    : keyed string :=
  match vulnerabilities with
  | [] => Value html
  | vuln :: vulnerabilities =>
      let risk_level := lower (Scanner.risk_level vuln) in
      match risk_colors !! Scanner.risk_level vuln with
      | None => KeyError (Scanner.risk_level vuln)
      | Some color =>
          let html :=
            html +:+ html_vulnerability risk_level color
                       (Scanner.risk_level vuln) (type vuln) (description vuln) in
          let html :=
            match fix_ vuln with
            | Some fix_ => html +:+ html_fix fix_
            | None => html
            end in
          let html :=
            match location vuln with
            | Some location => html +:+ html_location location
            | None => html
            end in
          let html := html +:+ "</div>" in
          html_vulnerabilities vulnerabilities html
      end
  end.

Definition generate_html_report (current_time : string)
    (vulnerabilities : list finding) : keyed string :=
  match html_vulnerabilities vulnerabilities (html_head current_time) with
  | Value html => Value (html +:+ html_tail)
  | KeyError key => KeyError key
  end.

End Reporter.

(** ** The HTTP endpoints *)

Module Api.
Import PyStr Re Scanner.

(** A response: the findings with status 200, or status 500 with the text of
    the exception as detail. *)
Inductive response :=
| Ok200 (body : list finding)
| Error500 (detail : string).

(** [scan_code] and [scan_logs]: the analyzers they call raise nothing. *)
Definition scan_code (code : string) : response := Ok200 (analyze_code code).
Definition scan_logs (logs : string) : response := Ok200 (analyze_logs logs).

Section Url.
Variable validators_url : string → bool.
Variable requests_get : string → outcome.

(** [scan_url]: whatever [analyze_url] raises becomes a 500. *)
Definition scan_url (url : string) : response :=
  match (analyze_url validators_url requests_get url).2 with
  | Returns vulnerabilities => Ok200 vulnerabilities
  | Raises e => Error500 e
  end.
End Url.

End Api.

(** ** Further vocabulary *)

Module Notions.
Import PyStr Re Scanner Vocabulary Reporter.

(** A cursor with its text in lower case. *)
Definition lower_cursor (p : cursor) : cursor := (char_lower <$> p.1, lower p.2).

(** The risk level is a key of [risk_colors]. *)
Definition known_risk (v : finding) : Prop :=
  is_Some (risk_colors !! risk_level v).

(** A match moved [k] characters to the right. *)
Definition shift_match (k : nat) (m : nat * string) : nat * string :=
  (k + m.1, m.2).

(** The findings for the tracked headers a response lacks, in table order. *)
Definition missing_header_findings (headers : gmap string (string * string))
    : list finding :=
  (λ hm, missing_header_finding hm.1 hm.2)
    <$> filter (λ hm, header_in hm.1 headers = false) security_headers.

(** The section [generate_bug_report] writes for one finding. *)
Definition bug_section (vuln : finding) : string :=
  "## " +:+ type vuln +:+ nl +:+
  "**Risk Level:** " +:+ risk_level vuln +:+ nl +:+
  "**Description:** " +:+ description vuln +:+ nl +:+
  "**Recommended Fix:** " +:+ get_or_empty (fix_ vuln) +:+ nl +:+
  "**Location:** " +:+ get_or_empty (location vuln) +:+ nl +:+ nl.


(** The finding at position [i] of [l] has no finding of its [type] before
    it. *)
Definition first_index (l : list finding) (i : nat) : Prop :=
  ∃ v, l !! i = Some v ∧ ∀ j w, j < i → l !! j = Some w → type w ≠ type v.

End Notions.

Import PyStr Re Scanner Vocabulary Examples Reporter Api Notions.

(** ** The matcher on small inputs *)

(** A greedy star runs to the last way to go on, a lazy one to the first. *)
Example search_greedy :
  search (cat [lit "UPDATE"; Star Dot true; lit "SET"]) "x update a set b SET c"
  = Some (2, 18).
Proof. vm_compute. reflexivity. Qed.

Example search_lazy :
  search (cat [lit "<script"; Star Dot false; lit ">"]) "a <SCRIPT src=x>y>"
  = Some (2, 14).
Proof. vm_compute. reflexivity. Qed.

(** [\b] asks for a word character on one side only. *)
Example search_word_boundary :
  search (cat [Bnd; lit "innerHTML"; Bnd]) "el.innerhtml=x" = Some (3, 9)
  ∧ search (cat [Bnd; lit "innerHTML"; Bnd]) "myinnerHTML" = None
  ∧ search (cat [Bnd; lit "innerHTML"; Bnd]) "innerHTML2" = None.
Proof. vm_compute. done. Qed.

Example search_optional_class :
  any_search exposed_secrets "API_KEY" = true
  ∧ any_search exposed_secrets "api-key" = true
  ∧ any_search exposed_secrets "ApiKey" = true
  ∧ any_search exposed_secrets "api--key" = false.
Proof. vm_compute. done. Qed.

Example search_space_runs :
  any_search sql_injection "insert   into t" = true
  ∧ any_search sql_injection "insertinto t" = false
  ∧ any_search insecure_configs "DEBUG=True" = true
  ∧ any_search insecure_configs "debug  =  true" = true.
Proof. vm_compute. done. Qed.

(** [finditer] resumes where the last match ended. *)
Example finditer_resumes :
  finditer traversal "../../../.." = [(0, "../.."); (6, "../..")].
Proof. vm_compute. reflexivity. Qed.

Example split_newline_trailing :
  split_newline ("a" +:+ nl +:+ "b" +:+ nl) = ["a"; "b"; EmptyString].
Proof. vm_compute. reflexivity. Qed.

(** ** Strings *)

Lemma string_app_nil_l (s : string) : EmptyString +:+ s = s.
Proof. reflexivity. Qed.

Lemma string_app_cons (c : ascii) (s t : string) :
  String c s +:+ t = String c (s +:+ t).
Proof. reflexivity. Qed.

Lemma string_app_assoc (s t u : string) : (s +:+ t) +:+ u = s +:+ t +:+ u.
Proof.
  induction s as [|c s IH]; [reflexivity|].
  rewrite !string_app_cons. by f_equal.
Qed.

Lemma string_length_app (s t : string) :
  String.length (s +:+ t) = String.length s + String.length t.
Proof.
  induction s as [|c s IH]; [reflexivity|].
  rewrite string_app_cons. simpl. by f_equal.
Qed.

Lemma lower_app (s t : string) : lower (s +:+ t) = lower s +:+ lower t.
Proof.
  induction s as [|c s IH]; [reflexivity|].
  rewrite string_app_cons. simpl. rewrite string_app_cons. by f_equal.
Qed.

(** What [lower] gives as a concatenation comes from a concatenation. *)
Lemma lower_app_inv (s u v : string) :
  lower s = u +:+ v → ∃ a b, s = a +:+ b ∧ lower a = u ∧ lower b = v.
Proof.
  revert s. induction u as [|c u IH]; intros s H.
  - exists EmptyString, s. by rewrite !string_app_nil_l.
  - destruct s as [|d s]; [discriminate|].
    rewrite string_app_cons in H. simpl in H. injection H as Hc Hs.
    destruct (IH _ Hs) as (a & b & -> & Ha & Hb).
    exists (String d a), b. rewrite string_app_cons. simpl. by rewrite Hc, Ha.
Qed.

Lemma startswith_spec (s p : string) :
  startswith s p = true ↔ ∃ r, s = p +:+ r.
Proof.
  revert s. induction p as [|a p IH]; intros s.
  - split; [|by destruct s]. intros _. by exists s.
  - destruct s as [|b s]; simpl.
    + split; [discriminate|]. by intros [r ?].
    + rewrite andb_true_iff, bool_decide_eq_true, IH. split.
      * intros [-> [r ->]]. by exists r.
      * intros [r H]. rewrite string_app_cons in H. injection H as -> ->. eauto.
Qed.

Lemma contains_spec (s sub : string) :
  contains s sub = true ↔ ∃ a b, s = a +:+ sub +:+ b.
Proof.
  induction s as [|c s IH].
  - cbn [contains]. rewrite orb_false_r, startswith_spec. split.
    + intros [r ->]. by exists EmptyString, r.
    + intros (a & b & H). destruct a; [by exists b|discriminate].
  - cbn [contains]. rewrite orb_true_iff, startswith_spec, IH. split.
    + intros [[r ->]|(a & b & ->)].
      * by exists EmptyString, r.
      * by exists (String c a), b.
    + intros (a & b & H). destruct a as [|d a].
      * left. by exists b.
      * right. rewrite string_app_cons in H. injection H as _ ->. by exists a, b.
Qed.

(** The test the source makes, [kw in line.lower()], is the search for
    [kw] regardless of case. *)
Lemma contains_lower (line kw : string) :
  contains (lower line) kw = true ↔ ci_substring kw line.
Proof.
  rewrite contains_spec. split.
  - intros (u & v & H).
    destruct (lower_app_inv _ _ _ H) as (a & r & -> & _ & Hr).
    destruct (lower_app_inv _ _ _ Hr) as (k & b & -> & Hk & _).
    by exists a, k, b.
  - intros (a & k & b & -> & <-). exists (lower a), (lower b).
    by rewrite !lower_app.
Qed.

Lemma str_inj (m n : nat) : str m = str n → m = n.
Proof. apply (inj pretty). Qed.


(** ** The passes of [analyze_code] *)

Lemma foldl_scan (c : category) (f : list finding → nat * string → list finding) :
  (∀ acc n line,
     f acc (n, line) = if reports c line then acc ++ [finding_of c n] else acc) →
  ∀ l acc,
    foldl f acc l
    = acc ++ (finding_of c <$> (filter (λ p, reports c p.2 = true) l).*1).
Proof.
  intros Hf. induction l as [|[n line] l IH]; intros acc; simpl.
  - by rewrite app_nil_r.
  - rewrite IH, Hf, filter_cons. simpl.
    destruct (reports c line) eqn:E.
    + rewrite decide_True by done. simpl. by rewrite <- app_assoc.
    + by rewrite decide_False by done.
Qed.

Lemma check_sql_injection_scan lines acc :
  check_sql_injection lines acc
  = acc ++ (finding_of SqlInjection <$> hits SqlInjection lines).
Proof.
  apply foldl_scan. intros a n line. unfold reports, matches, suppressed.
  cbn [patterns finding_of]. destruct (any_search _ _); [|done].
  by destruct (contains _ "parameterized"), (contains _ "prepare").
Qed.

Lemma check_xss_scan lines acc :
  check_xss lines acc = acc ++ (finding_of Xss <$> hits Xss lines).
Proof.
  apply foldl_scan. intros a n line. unfold reports, matches, suppressed.
  cbn [patterns finding_of]. destruct (any_search _ _); [|done].
  by destruct (contains _ "escape"), (contains _ "sanitize").
Qed.

Lemma check_exposed_secrets_scan lines acc :
  check_exposed_secrets lines acc
  = acc ++ (finding_of ExposedSecrets <$> hits ExposedSecrets lines).
Proof.
  apply foldl_scan. intros a n line. unfold reports, matches, suppressed.
  cbn [patterns finding_of]. by destruct (any_search _ _).
Qed.

Lemma check_insecure_configs_scan lines acc :
  check_insecure_configs lines acc
  = acc ++ (finding_of InsecureConfigs <$> hits InsecureConfigs lines).
Proof.
  apply foldl_scan. intros a n line. unfold reports, matches, suppressed.
  cbn [patterns finding_of]. by destruct (any_search _ _).
Qed.

(** [analyze_code] is the four passes one after the other. *)
Lemma analyze_code_passes (code : string) :
  analyze_code code
  = categories ≫= λ c, finding_of c <$> hits c (split_newline code).
Proof.
  unfold analyze_code.
  rewrite check_insecure_configs_scan, check_exposed_secrets_scan,
    check_xss_scan, check_sql_injection_scan.
  simpl. by rewrite app_nil_r, <- !app_assoc.
Qed.

Lemma elem_of_analyze_code (code : string) (f : finding) :
  f ∈ analyze_code code
  ↔ ∃ c n, f = finding_of c n ∧ n ∈ hits c (split_newline code).
Proof.
  rewrite analyze_code_passes, list_elem_of_bind. split.
  - intros (c & Hf & _). apply list_elem_of_fmap in Hf as (n & -> & Hn). eauto.
  - intros (c & n & -> & Hn). exists c. split.
    + apply list_elem_of_fmap. eauto.
    + unfold categories. rewrite !elem_of_cons. destruct c; auto.
Qed.

(** *** The lines a pass reports *)

Lemma elem_of_enumerate_from {A} (l : list A) (k n : nat) (x : A) :
  (n, x) ∈ enumerate_from k l ↔ k ≤ n ∧ l !! (n - k) = Some x.
Proof.
  revert k. induction l as [|y l IH]; intros k; simpl.
  - rewrite elem_of_nil. split; [done|]. intros [_ H].
    by rewrite lookup_nil in H.
  - rewrite elem_of_cons. split.
    + intros [Heq|Hin].
      * simplify_eq. by rewrite Nat.sub_diag.
      * apply IH in Hin as [Hk Hx]. split; [lia|].
        by replace (n - k) with (S (n - S k)) by lia.
    + intros [Hk Hx]. destruct (decide (n = k)) as [->|Hne].
      * left. rewrite Nat.sub_diag in Hx. simpl in Hx. congruence.
      * right. apply IH. split; [lia|].
        by replace (n - k) with (S (n - S k)) in Hx by lia.
Qed.

Lemma elem_of_hits (c : category) (lines : list string) (n : nat) :
  n ∈ hits c lines ↔ ∃ line, lines !! n = Some line ∧ reports c line = true.
Proof.
  unfold hits, enumerate. rewrite list_elem_of_fmap. split.
  - intros ([m line] & -> & H). apply list_elem_of_filter in H as [Hr H].
    apply elem_of_enumerate_from in H as [_ H]. rewrite Nat.sub_0_r in H. eauto.
  - intros (line & Hl & Hr). exists (n, line). split; [done|].
    apply list_elem_of_filter. split; [done|].
    apply elem_of_enumerate_from. rewrite Nat.sub_0_r. split; [lia|done].
Qed.

Lemma hits_lt_length (c : category) (lines : list string) (n : nat) :
  n ∈ hits c lines → n < length lines.
Proof.
  intros H. apply elem_of_hits in H as (line & H & _).
  by apply lookup_lt_Some in H.
Qed.

Lemma enumerate_from_sorted {A} (l : list A) (k : nat) :
  StronglySorted lt (enumerate_from k l).*1
  ∧ Forall (le k) (enumerate_from k l).*1.
Proof.
  revert k. induction l as [|x l IH]; intros k; simpl.
  - split; constructor.
  - destruct (IH (S k)) as [Hs Hf]. split.
    + constructor; [done|]. eapply Forall_impl; [done|]. simpl. lia.
    + constructor; [done|]. eapply Forall_impl; [done|]. simpl. lia.
Qed.

Lemma StronglySorted_fst_filter {A} (P : nat * A → Prop)
    `{∀ p, Decision (P p)} (l : list (nat * A)) :
  StronglySorted lt l.*1 → StronglySorted lt (filter P l).*1.
Proof.
  induction l as [|p l IH]; [done|]. simpl. intros Hs.
  apply StronglySorted_inv in Hs as [Hs Hp].
  rewrite filter_cons. destruct (decide (P p)); [|by apply IH].
  simpl. constructor; [by apply IH|].
  apply Forall_forall. intros n Hn.
  apply list_elem_of_fmap in Hn as (q & -> & Hq).
  apply list_elem_of_filter in Hq as [_ Hq].
  eapply Forall_forall in Hp; [done|]. apply list_elem_of_fmap. eauto.
Qed.

(** A pass reports its lines in ascending order, each once. *)
Lemma hits_sorted (c : category) (lines : list string) :
  StronglySorted lt (hits c lines).
Proof.
  apply StronglySorted_fst_filter, enumerate_from_sorted.
Qed.

Lemma StronglySorted_lt_NoDup (l : list nat) : StronglySorted lt l → NoDup l.
Proof.
  induction 1 as [|n l _ IH Hn]; constructor; [|done].
  intros Hin. eapply Forall_forall in Hn; [|done]. lia.
Qed.

Lemma hits_NoDup (c : category) (lines : list string) : NoDup (hits c lines).
Proof. apply StronglySorted_lt_NoDup, hits_sorted. Qed.

(** *** What a pass puts in its findings *)

Lemma type_finding_of (c : category) (n : nat) : type (finding_of c n) = label c.
Proof. by destruct c. Qed.

Lemma location_finding_of (c : category) (n : nat) :
  location (finding_of c n) = Some (line_location (n + 1)).
Proof. by destruct c. Qed.

Lemma label_inj (c c' : category) : label c = label c' → c = c'.
Proof. by destruct c, c'. Qed.

Lemma finding_of_at (c c' : category) (m n : nat) :
  type (finding_of c' m) = label c
  ∧ location (finding_of c' m) = Some (line_location (n + 1))
  ↔ c' = c ∧ m = n.
Proof.
  rewrite type_finding_of, location_finding_of. split.
  - intros [Hc Hl]. split; [by apply label_inj|].
    injection Hl as Hl. apply str_inj in Hl. lia.
  - by intros [-> ->].
Qed.

Lemma length_filter_eq_NoDup (l : list nat) (n : nat) :
  NoDup l → length (filter (λ m, m = n) l) = if decide (n ∈ l) then 1 else 0.
Proof.
  induction 1 as [|m l Hm _ IH]; [done|].
  rewrite filter_cons. destruct (decide (m = n)) as [->|Hne]; simpl.
  - rewrite decide_True by left.
    rewrite decide_False in IH by done. by rewrite IH.
  - rewrite IH. destruct (decide (n ∈ l)) as [Hin|Hin].
    + by rewrite decide_True by by right.
    + rewrite decide_False; [done|]. rewrite elem_of_cons. intros [?|?]; auto.
Qed.

Lemma findings_at_pass (c c' : category) (n : nat) (l : list nat) :
  length (findings_at (finding_of c' <$> l) (label c) (n + 1))
  = if decide (c' = c) then length (filter (λ m, m = n) l) else 0.
Proof.
  unfold findings_at. induction l as [|m l IH]; [by destruct (decide _)|].
  rewrite fmap_cons, !filter_cons.
  destruct (decide (c' = c)) as [->|Hne].
  - destruct (decide (m = n)) as [->|Hmn].
    + rewrite decide_True by by apply finding_of_at. simpl. by rewrite IH.
    + rewrite decide_False; [done|]. rewrite finding_of_at. by intros [_ ?].
  - rewrite decide_False; [done|]. rewrite finding_of_at. by intros [? _].
Qed.

Lemma findings_on_line_pass (c : category) (n : nat) (l : list nat) :
  length (findings_on_line (finding_of c <$> l) (n + 1))
  = length (filter (λ m, m = n) l).
Proof.
  unfold findings_on_line. induction l as [|m l IH]; [done|].
  rewrite fmap_cons, !filter_cons, location_finding_of.
  destruct (decide (m = n)) as [->|Hmn].
  - rewrite decide_True by done. simpl. by rewrite IH.
  - rewrite decide_False; [done|]. intros [= H]. apply str_inj in H. lia.
Qed.

(** How many findings of a category [analyze_code] gives a line: one if
    the pass reports the line, none otherwise. *)
Lemma length_findings_at (code : string) (c : category) (n : nat) :
  length (findings_at (analyze_code code) (label c) (n + 1))
  = if decide (n ∈ hits c (split_newline code)) then 1 else 0.
Proof.
  rewrite analyze_code_passes. unfold categories. cbn [mbind list_bind].
  unfold findings_at. rewrite !filter_app, !length_app.
  fold (findings_at (finding_of SqlInjection <$> hits SqlInjection (split_newline code)) (label c) (n + 1)).
  fold (findings_at (finding_of Xss <$> hits Xss (split_newline code)) (label c) (n + 1)).
  fold (findings_at (finding_of ExposedSecrets <$> hits ExposedSecrets (split_newline code)) (label c) (n + 1)).
  fold (findings_at (finding_of InsecureConfigs <$> hits InsecureConfigs (split_newline code)) (label c) (n + 1)).
  rewrite !findings_at_pass. rewrite filter_nil. simpl.
  rewrite <- (length_filter_eq_NoDup _ _ (hits_NoDup c _)).
  destruct c; repeat case_decide; try congruence; lia.
Qed.

Lemma length_findings_on_line (code : string) (n : nat) :
  length (findings_on_line (analyze_code code) (n + 1))
  = length (filter (λ c, n ∈ hits c (split_newline code)) categories).
Proof.
  rewrite analyze_code_passes. unfold categories. cbn [mbind list_bind].
  unfold findings_on_line. rewrite !filter_app, !length_app.
  fold (findings_on_line (finding_of SqlInjection <$> hits SqlInjection (split_newline code)) (n + 1)).
  fold (findings_on_line (finding_of Xss <$> hits Xss (split_newline code)) (n + 1)).
  fold (findings_on_line (finding_of ExposedSecrets <$> hits ExposedSecrets (split_newline code)) (n + 1)).
  fold (findings_on_line (finding_of InsecureConfigs <$> hits InsecureConfigs (split_newline code)) (n + 1)).
  rewrite !findings_on_line_pass, !length_filter_eq_NoDup by apply hits_NoDup.
  rewrite !filter_cons, filter_nil.
  repeat destruct (decide (n ∈ hits _ _)); reflexivity.
Qed.

(** A finding of a category at a line exists exactly when the pass reports
    the line. *)
Lemma finding_at_iff (code : string) (c : category) (i : nat) :
  (∃ f, f ∈ analyze_code code ∧ type f = label c
        ∧ location f = Some (line_location (i + 1)))
  ↔ ∃ line, split_newline code !! i = Some line ∧ reports c line = true.
Proof.
  rewrite <- elem_of_hits. split.
  - intros (f & Hf & Ht & Hl).
    apply elem_of_analyze_code in Hf as (c' & n & -> & Hn).
    assert (c' = c ∧ n = i) as [-> ->] by by apply finding_of_at.
    done.
  - intros Hi. exists (finding_of c i). split_and!.
    + apply elem_of_analyze_code. eauto.
    + apply type_finding_of.
    + apply location_finding_of.
Qed.

Lemma matching_patterns_pos (c : category) (line : string) :
  1 ≤ matching_patterns c line ↔ matches c line = true.
Proof.
  unfold matching_patterns, matches, any_search.
  induction (patterns c) as [|r rs IH]; simpl.
  - split; [lia|done].
  - rewrite filter_cons, orb_true_iff, <- IH.
    destruct (decide (is_Some (search r line))) as [H|H].
    + rewrite bool_decide_eq_true_2 by done. simpl. split; [auto|lia].
    + rewrite bool_decide_eq_false_2 by done. split; [auto|]. by intros [|].
Qed.

(** *** The order of the findings *)

Lemma listed_before_same_pass (c : category) (m n : nat) :
  m < n → listed_before (finding_of c m) (finding_of c n).
Proof.
  intros Hmn. exists c, (m + 1), c, (n + 1).
  rewrite !type_finding_of, !location_finding_of. split_and!; try done.
  right. split; [done|lia].
Qed.

Lemma listed_before_later_pass (c1 c2 : category) (m n : nat) :
  rank c1 < rank c2 → listed_before (finding_of c1 m) (finding_of c2 n).
Proof.
  intros Hr. exists c1, (m + 1), c2, (n + 1).
  rewrite !type_finding_of, !location_finding_of. split_and!; try done.
  by left.
Qed.

Lemma pass_sorted (c : category) (lines : list string) :
  StronglySorted listed_before (finding_of c <$> hits c lines).
Proof.
  eapply StronglySorted_fmap; [|apply hits_sorted].
  intros m n. apply listed_before_same_pass.
Qed.

Lemma passes_sorted (lines : list string) (cs : list category) :
  StronglySorted (λ c1 c2, rank c1 < rank c2) cs →
  StronglySorted listed_before (cs ≫= λ c, finding_of c <$> hits c lines).
Proof.
  induction 1 as [|c cs _ IH Hc]; [constructor|]. cbn [mbind list_bind].
  apply StronglySorted_app_2; [|apply pass_sorted|apply IH].
  intros f g Hf Hg.
  apply list_elem_of_fmap in Hf as (m & -> & _).
  apply list_elem_of_bind in Hg as (c2 & Hg & Hc2).
  apply list_elem_of_fmap in Hg as (n & -> & _).
  apply listed_before_later_pass.
  eapply Forall_forall in Hc; [done|done].
Qed.

Lemma analyze_code_sorted (code : string) :
  StronglySorted listed_before (analyze_code code).
Proof.
  rewrite analyze_code_passes. apply passes_sorted.
  unfold categories. repeat (constructor; [|repeat constructor; simpl; lia]).
  constructor.
Qed.

Lemma StronglySorted_lookup {A} (R : relation A) (l : list A) (p q : nat) x y :
  StronglySorted R l → p < q → l !! p = Some x → l !! q = Some y → R x y.
Proof.
  intros Hs. revert p q. induction Hs as [|z l _ IH Hz]; intros p q Hpq Hp Hq.
  - by rewrite lookup_nil in Hp.
  - destruct q as [|q]; [lia|]. destruct p as [|p]; simpl in *.
    + injection Hp as ->. eapply Forall_forall in Hz; [done|].
      by eapply list_elem_of_lookup_2.
    + eapply (IH p q); [lia|done|done].
Qed.

(** ** The code analyzer: the claims *)

(** C1. Suppression law.  On a line that matches an SQL-injection pattern
    and holds "parameterized" or "prepare" in any case, [analyze_code] gives
    no SQL Injection finding for that line; on a line that matches an XSS
    pattern and holds "escape" or "sanitize" in any case, it gives no XSS
    finding for that line.  A line that matches an exposed-secrets or an
    insecure-configuration pattern gets its finding whatever else it holds. *)
Theorem suppression_law (code : string) (i : nat) (line : string) :
  split_newline code !! i = Some line →
  (any_search sql_injection line = true →
   ci_substring "parameterized" line ∨ ci_substring "prepare" line →
   ∀ f, f ∈ analyze_code code →
     ¬ (type f = "SQL Injection" ∧ location f = Some ("Line " +:+ str (i + 1))))
  ∧ (any_search xss line = true →
     ci_substring "escape" line ∨ ci_substring "sanitize" line →
     ∀ f, f ∈ analyze_code code →
       ¬ (type f = "Cross-Site Scripting (XSS)"
          ∧ location f = Some ("Line " +:+ str (i + 1))))
  ∧ (any_search exposed_secrets line = true →
     ∃ f, f ∈ analyze_code code ∧ type f = "Exposed Secrets"
          ∧ location f = Some ("Line " +:+ str (i + 1)))
  ∧ (any_search insecure_configs line = true →
     ∃ f, f ∈ analyze_code code ∧ type f = "Security Misconfiguration"
          ∧ location f = Some ("Line " +:+ str (i + 1))).
Proof.
  intros Hline. split_and!.
  - intros _ Hkw f Hf [Ht Hl].
    destruct (proj1 (finding_at_iff code SqlInjection i)) as (l & Hl' & Hr);
      [by exists f|].
    assert (l = line) as -> by congruence.
    apply andb_true_iff in Hr as [_ Hr]. apply negb_true_iff in Hr.
    apply orb_false_iff in Hr as [H1 H2].
    destruct Hkw as [H|H]; apply contains_lower in H; congruence.
  - intros _ Hkw f Hf [Ht Hl].
    destruct (proj1 (finding_at_iff code Xss i)) as (l & Hl' & Hr);
      [by exists f|].
    assert (l = line) as -> by congruence.
    apply andb_true_iff in Hr as [_ Hr]. apply negb_true_iff in Hr.
    apply orb_false_iff in Hr as [H1 H2].
    destruct Hkw as [H|H]; apply contains_lower in H; congruence.
  - intros Hm. apply (finding_at_iff code ExposedSecrets i).
    exists line. split; [done|]. unfold reports, matches. cbn [patterns suppressed].
    by rewrite Hm.
  - intros Hm. apply (finding_at_iff code InsecureConfigs i).
    exists line. split; [done|]. unfold reports, matches. cbn [patterns suppressed].
    by rewrite Hm.
Qed.

Lemma suppression_law_witness :
  (∀ f, f ∈ analyze_code mitigated_code →
     ¬ (type f = "SQL Injection" ∧ location f = Some ("Line " +:+ str (0 + 1))))
  ∧ (∀ f, f ∈ analyze_code mitigated_code →
       ¬ (type f = "Cross-Site Scripting (XSS)"
          ∧ location f = Some ("Line " +:+ str (1 + 1))))
  ∧ (∃ f, f ∈ analyze_code mitigated_code ∧ type f = "Exposed Secrets"
          ∧ location f = Some ("Line " +:+ str (2 + 1)))
  ∧ (∃ f, f ∈ analyze_code mitigated_code
          ∧ type f = "Security Misconfiguration"
          ∧ location f = Some ("Line " +:+ str (3 + 1))).
Proof.
  split; [|split; [|split]].
  - apply (suppression_law mitigated_code 0
             "cur.prepare('SELECT a FROM t WHERE b')"); [reflexivity| |].
    + vm_compute. reflexivity.
    + right. exists "cur.", "prepare", "('SELECT a FROM t WHERE b')".
      split; reflexivity.
  - apply (suppression_law mitigated_code 1 "Sanitize('<script>')");
      [reflexivity| |].
    + vm_compute. reflexivity.
    + right. exists EmptyString, "Sanitize", "('<script>')".
      split; reflexivity.
  - apply (suppression_law mitigated_code 2 "password = prepare(escape(x))");
      [reflexivity|]. vm_compute. reflexivity.
  - apply (suppression_law mitigated_code 3
             "DEBUG = True  # parameterized, sanitize");
      [reflexivity|]. vm_compute. reflexivity.
Defined.

(** C5, as the code has it.  Multiplicity law.  For every line and category
    [analyze_code] gives at most one finding; a line that matches one or
    several patterns of a category gets exactly one finding of that
    category unless a mitigation keyword of the category is on the line; a
    line that matches patterns of two different categories, with no
    mitigation keyword for either and no third category reporting it, gets
    exactly two findings, one of each. *)
Theorem multiplicity_law (code : string) (i : nat) (line : string) :
  split_newline code !! i = Some line →
  (∀ c, length (findings_at (analyze_code code) (label c) (i + 1)) ≤ 1)
  ∧ (∀ c, 1 ≤ matching_patterns c line → suppressed c line = false →
       length (findings_at (analyze_code code) (label c) (i + 1)) = 1)
  ∧ (∀ c1 c2, c1 ≠ c2 →
       matches c1 line = true → suppressed c1 line = false →
       matches c2 line = true → suppressed c2 line = false →
       (∀ c, reports c line = true → c = c1 ∨ c = c2) →
       length (findings_on_line (analyze_code code) (i + 1)) = 2
       ∧ length (findings_at (analyze_code code) (label c1) (i + 1)) = 1
       ∧ length (findings_at (analyze_code code) (label c2) (i + 1)) = 1).
Proof.
  intros Hline.
  assert (Hhit : ∀ c, i ∈ hits c (split_newline code) ↔ reports c line = true).
  { intros c. rewrite elem_of_hits. split.
    - intros (l & Hl & Hr). congruence.
    - intros Hr. by exists line. }
  assert (Hone : ∀ c, matches c line = true → suppressed c line = false →
            length (findings_at (analyze_code code) (label c) (i + 1)) = 1).
  { intros c Hm Hs. rewrite length_findings_at, decide_True; [done|].
    apply Hhit. unfold reports. by rewrite Hm, Hs. }
  split_and!.
  - intros c. rewrite length_findings_at. case_decide; lia.
  - intros c Hm Hs. apply Hone; [|done]. by apply matching_patterns_pos.
  - intros c1 c2 Hne Hm1 Hs1 Hm2 Hs2 Honly. split_and!; [|by apply Hone..].
    rewrite length_findings_on_line.
    assert (Hr1 : reports c1 line = true) by (unfold reports; by rewrite Hm1, Hs1).
    assert (Hr2 : reports c2 line = true) by (unfold reports; by rewrite Hm2, Hs2).
    assert (Hiff : ∀ c, i ∈ hits c (split_newline code) ↔ c = c1 ∨ c = c2).
    { intros c. rewrite Hhit. split; [apply Honly|]. by intros [->| ->]. }
    rewrite (list_filter_iff _ (λ c, c = c1 ∨ c = c2)) by done.
    by destruct c1, c2.
Qed.

Lemma multiplicity_law_witness :
  length (findings_at (analyze_code union_code) "SQL Injection" (1 + 1)) = 1
  ∧ length (findings_on_line (analyze_code password_script_line) (0 + 1)) = 2
  ∧ length (findings_at (analyze_code password_script_line)
              "Cross-Site Scripting (XSS)" (0 + 1)) = 1
  ∧ length (findings_at (analyze_code password_script_line)
              "Exposed Secrets" (0 + 1)) = 1.
Proof.
  split.
  - destruct (multiplicity_law union_code 1
                "SELECT a FROM t WHERE b UNION SELECT c FROM u WHERE d"
                eq_refl) as (_ & Hone & _).
    apply (Hone SqlInjection).
    + vm_compute. lia.
    + vm_compute. reflexivity.
  - destruct (multiplicity_law password_script_line 0 "password <script>"
                eq_refl) as (_ & _ & Htwo).
    apply (Htwo Xss ExposedSecrets).
    + discriminate.
    + vm_compute. reflexivity.
    + vm_compute. reflexivity.
    + vm_compute. reflexivity.
    + vm_compute. reflexivity.
    + intros c. destruct c; vm_compute; intros H; auto; discriminate H.
Defined.

(** C6. Of two findings in the list [analyze_code] returns, the earlier one
    comes from an earlier category in the order SQL injection, XSS, exposed
    secrets, insecure configurations, or from the same category and a
    smaller line number. *)
Theorem analyze_code_order (code : string) (p q : nat) (f g : finding) :
  p < q →
  analyze_code code !! p = Some f →
  analyze_code code !! q = Some g →
  ∃ c1 n1 c2 n2,
    type f = label c1 ∧ location f = Some ("Line " +:+ str n1) ∧
    type g = label c2 ∧ location g = Some ("Line " +:+ str n2) ∧
    (rank c1 < rank c2 ∨ c1 = c2 ∧ n1 < n2).
Proof.
  intros Hpq Hp Hq.
  exact (StronglySorted_lookup _ _ _ _ _ _ (analyze_code_sorted code) Hpq Hp Hq).
Qed.

Lemma analyze_code_order_witness :
  ∃ c1 n1 c2 n2,
    type (sql_injection_finding 1) = label c1
    ∧ location (sql_injection_finding 1) = Some ("Line " +:+ str n1)
    ∧ type (exposed_secrets_finding 0) = label c2
    ∧ location (exposed_secrets_finding 0) = Some ("Line " +:+ str n2)
    ∧ (rank c1 < rank c2 ∨ c1 = c2 ∧ n1 < n2).
Proof.
  apply (analyze_code_order
           ("password" +:+ nl +:+ "DELETE FROM t" +:+ nl +:+ "UPDATE t SET a")
           0 2).
  - lia.
  - vm_compute. reflexivity.
  - vm_compute. reflexivity.
Defined.

(** C7. Every finding of [analyze_code] is located at "Line n" for a line
    number n between 1 and the number of pieces [code.split('\n')] gives. *)
Theorem analyze_code_line_numbers (code : string) (f : finding) :
  f ∈ analyze_code code →
  ∃ n, location f = Some ("Line " +:+ str n)
       ∧ 1 ≤ n ≤ length (split_newline code).
Proof.
  intros Hf. apply elem_of_analyze_code in Hf as (c & n & -> & Hn).
  apply hits_lt_length in Hn. exists (n + 1).
  split; [apply location_finding_of|lia].
Qed.

Lemma analyze_code_line_numbers_witness :
  ∃ n, location (insecure_configs_finding 3) = Some ("Line " +:+ str n)
       ∧ 1 ≤ n ≤ length (split_newline mitigated_code).
Proof.
  apply (analyze_code_line_numbers mitigated_code).
  vm_compute. right. left.
Defined.

(** C8. On the one line [query = "SELECT * FROM users WHERE id=" + user_id]
    [analyze_code] returns exactly one finding: an SQL Injection, Critical,
    at "Line 1". *)
Theorem analyze_code_sql_query :
  ∃ f, analyze_code sql_query_line = [f]
       ∧ type f = "SQL Injection"
       ∧ risk_level f = "Critical"
       ∧ location f = Some "Line 1".
Proof.
  exists (sql_injection_finding 0). split_and!; [|reflexivity..].
  vm_compute. reflexivity.
Qed.

(** C10. In every finding of [analyze_code] the type is one of the four
    category labels and fixes the risk level: SQL Injection is Critical,
    Cross-Site Scripting (XSS) is High, Exposed Secrets is Critical,
    Security Misconfiguration is High; and the finding has a location and
    a fix. *)
Theorem analyze_code_risk_levels (code : string) (f : finding) :
  f ∈ analyze_code code →
  type f ∈ ["SQL Injection"; "Cross-Site Scripting (XSS)"; "Exposed Secrets";
            "Security Misconfiguration"]
  ∧ (type f = "SQL Injection" → risk_level f = "Critical")
  ∧ (type f = "Cross-Site Scripting (XSS)" → risk_level f = "High")
  ∧ (type f = "Exposed Secrets" → risk_level f = "Critical")
  ∧ (type f = "Security Misconfiguration" → risk_level f = "High")
  ∧ is_Some (location f)
  ∧ is_Some (fix_ f).
Proof.
  intros Hf. apply elem_of_analyze_code in Hf as (c & n & -> & _).
  split_and!; try (by destruct c); destruct c; cbn [finding_of type sql_injection_finding
    xss_finding exposed_secrets_finding insecure_configs_finding];
    rewrite !elem_of_cons; auto.
Qed.

Lemma analyze_code_risk_levels_witness :
  type (xss_finding 1)
    ∈ ["SQL Injection"; "Cross-Site Scripting (XSS)"; "Exposed Secrets";
       "Security Misconfiguration"]
  ∧ (type (xss_finding 1) = "SQL Injection"
     → risk_level (xss_finding 1) = "Critical")
  ∧ (type (xss_finding 1) = "Cross-Site Scripting (XSS)"
     → risk_level (xss_finding 1) = "High")
  ∧ (type (xss_finding 1) = "Exposed Secrets"
     → risk_level (xss_finding 1) = "Critical")
  ∧ (type (xss_finding 1) = "Security Misconfiguration"
     → risk_level (xss_finding 1) = "High")
  ∧ is_Some (location (xss_finding 1))
  ∧ is_Some (fix_ (xss_finding 1)).
Proof.
  apply (analyze_code_risk_levels ("x" +:+ nl +:+ "a.innerHTML = b")).
  vm_compute. left.
Defined.

(** ** The de-duplication of [print_results] *)

Lemma first_of_its_type_snoc (l : list finding) (x v : finding) :
  first_of_its_type (l ++ [x]) v
  ↔ first_of_its_type l v ∨ (v = x ∧ type x ∉ type <$> l).
Proof.
  split.
  - intros (i & Hi & Hfirst).
    destruct (decide (i < length l)) as [Hlt|Hge].
    + left. exists i. rewrite lookup_app_l in Hi by done. split; [done|].
      intros j w Hj Hw. apply (Hfirst j w Hj).
      rewrite lookup_app_l by lia. done.
    + right. apply lookup_lt_Some in Hi as Hlen.
      rewrite length_app in Hlen. simpl in Hlen.
      assert (i = length l) as -> by lia.
      rewrite list_lookup_middle in Hi by done. injection Hi as <-.
      split; [done|]. intros Hin.
      apply list_elem_of_fmap in Hin as (w & Hty & Hw).
      apply list_elem_of_lookup in Hw as (j & Hj).
      apply lookup_lt_Some in Hj as Hjlt.
      apply (Hfirst j w Hjlt); [|done].
      by rewrite lookup_app_l by done.
  - intros [(i & Hi & Hfirst)|[-> Hnew]].
    + apply lookup_lt_Some in Hi as Hlt. exists i.
      rewrite lookup_app_l by done. split; [done|].
      intros j w Hj Hw. rewrite lookup_app_l in Hw by lia. eauto.
    + exists (length l). rewrite list_lookup_middle by done. split; [done|].
      intros j w Hj Hw Hty. rewrite lookup_app_l in Hw by done.
      apply Hnew. apply list_elem_of_fmap. exists w. split; [done|].
      by eapply list_elem_of_lookup_2.
Qed.

(** What the loop holds after it has read [l]: the types seen, and the
    findings kept. *)
Lemma unique_loop_spec (l : list finding) :
  ∀ u seen, foldl unique_step ([], ∅) l = (u, seen) →
    (∀ t, t ∈ seen ↔ t ∈ type <$> l)
    ∧ u `sublist_of` l
    ∧ NoDup (type <$> u)
    ∧ (∀ v, v ∈ u ↔ first_of_its_type l v).
Proof.
  induction l as [|x l IH] using rev_ind; intros u seen Hloop.
  - simpl in Hloop. injection Hloop as <- <-. split_and!.
    + intros t. rewrite elem_of_empty. simpl. by rewrite elem_of_nil.
    + constructor.
    + constructor.
    + intros v. rewrite elem_of_nil. split; [done|].
      intros (i & Hi & _). by rewrite lookup_nil in Hi.
  - rewrite foldl_app in Hloop. simpl in Hloop.
    destruct (foldl unique_step ([], ∅) l) as [u0 seen0] eqn:Hl.
    destruct (IH u0 seen0 eq_refl) as (Hseen & Hsub & Hnd & Hkept).
    unfold unique_step in Hloop.
    destruct (decide (type x ∈ seen0)) as [Hin|Hnin].
    + injection Hloop as <- <-. split_and!.
      * intros t. rewrite fmap_app, elem_of_app, <- Hseen. simpl.
        rewrite list_elem_of_singleton. split; [auto|]. by intros [?| ->].
      * by apply sublist_inserts_r.
      * done.
      * intros v. rewrite first_of_its_type_snoc, Hkept. split; [auto|].
        intros [?|[_ Hnew]]; [done|]. by apply Hseen in Hin.
    + injection Hloop as <- <-. split_and!.
      * intros t. rewrite fmap_app, elem_of_app, <- Hseen, elem_of_union.
        simpl. by rewrite list_elem_of_singleton, elem_of_singleton.
      * by apply sublist_app.
      * rewrite fmap_app. apply NoDup_app. split_and!; [done| |apply NoDup_singleton].
        intros t Ht Hx. simpl in Hx. apply list_elem_of_singleton in Hx as ->.
        apply Hnin, Hseen.
        apply list_elem_of_fmap in Ht as (w & -> & Hw).
        apply list_elem_of_fmap. exists w. split; [done|].
        by eapply elem_of_sublist.
      * intros v. rewrite first_of_its_type_snoc, elem_of_app, Hkept.
        rewrite list_elem_of_singleton, <- Hseen. split.
        -- intros [?| ->]; auto.
        -- intros [?|[-> _]]; auto.
Qed.

Lemma unique_vulnerabilities_five (a1 b1 a2 c1 b2 : finding) :
  type a2 = type a1 → type b2 = type b1 →
  type a1 ≠ type b1 → type a1 ≠ type c1 → type b1 ≠ type c1 →
  unique_vulnerabilities [a1; b1; a2; c1; b2] = [a1; b1; c1].
Proof.
  intros Ha Hb Hab Hac Hbc.
  unfold unique_vulnerabilities, foldl, unique_step. rewrite Ha, Hb.
  rewrite (decide_False (P := type a1 ∈ ∅)) by apply not_elem_of_empty.
  rewrite (decide_False (P := type b1 ∈ _)).
  2: { rewrite elem_of_union, elem_of_singleton, elem_of_empty. intros [[]|?]. congruence. }
  rewrite (decide_True (P := type a1 ∈ _)).
  2: { rewrite !elem_of_union, !elem_of_singleton. auto. }
  rewrite (decide_False (P := type c1 ∈ _)).
  2: { rewrite !elem_of_union, !elem_of_singleton, elem_of_empty.
       intros [[[]|?]|?]; congruence. }
  rewrite (decide_True (P := type b1 ∈ _)).
  2: { rewrite !elem_of_union, !elem_of_singleton. auto. }
  reflexivity.
Qed.

Lemma first_index_snoc (l : list finding) (x : finding) (i : nat) :
  first_index (l ++ [x]) i
  ↔ first_index l i ∨ (i = length l ∧ type x ∉ type <$> l).
Proof.
  split.
  - intros (v & Hi & Hfirst).
    destruct (decide (i < length l)) as [Hlt|Hge].
    + left. exists v. rewrite lookup_app_l in Hi by done. split; [done|].
      intros j w Hj Hw. apply (Hfirst j w Hj).
      by rewrite lookup_app_l by lia.
    + right. apply lookup_lt_Some in Hi as Hlen.
      rewrite length_app in Hlen. simpl in Hlen.
      assert (i = length l) as -> by lia. split; [done|].
      rewrite list_lookup_middle in Hi by done. injection Hi as <-.
      intros Hin. apply list_elem_of_fmap in Hin as (w & Hty & Hw).
      apply list_elem_of_lookup in Hw as (j & Hj).
      apply lookup_lt_Some in Hj as Hjlt.
      apply (Hfirst j w Hjlt); [|done]. by rewrite lookup_app_l by done.
  - intros [(v & Hi & Hfirst)|[-> Hnew]].
    + apply lookup_lt_Some in Hi as Hlt. exists v.
      rewrite lookup_app_l by done. split; [done|].
      intros j w Hj Hw. rewrite lookup_app_l in Hw by lia. eauto.
    + exists x. rewrite list_lookup_middle by done. split; [done|].
      intros j w Hj Hw Hty. rewrite lookup_app_l in Hw by done.
      apply Hnew. apply list_elem_of_fmap. exists w. split; [done|].
      by eapply list_elem_of_lookup_2.
Qed.

(** The findings kept are those at the positions that are the first of
    their type, taken in ascending order. *)
Lemma unique_loop_indices (l : list finding) :
  ∀ u seen, foldl unique_step ([], ∅) l = (u, seen) →
    ∃ indices,
      StronglySorted lt indices
      ∧ (∀ i, i ∈ indices ↔ first_index l i)
      ∧ Forall2 (λ v i, l !! i = Some v) u indices.
Proof.
  induction l as [|x l IH] using rev_ind; intros u seen Hloop.
  - simpl in Hloop. injection Hloop as <- <-. exists []. split_and!.
    + constructor.
    + intros i. rewrite elem_of_nil. split; [done|].
      intros (v & Hi & _). by rewrite lookup_nil in Hi.
    + constructor.
  - rewrite foldl_app in Hloop. simpl in Hloop.
    destruct (foldl unique_step ([], ∅) l) as [u0 seen0] eqn:Hl.
    destruct (IH u0 seen0 eq_refl) as (indices & Hsort & Hmem & Hat).
    destruct (unique_loop_spec l u0 seen0 Hl) as (Hseen & _).
    assert (Hlift : Forall2 (λ v i, (l ++ [x]) !! i = Some v) u0 indices).
    { eapply Forall2_impl; [exact Hat|]. intros v i Hi.
      apply lookup_lt_Some in Hi as Hlt. by rewrite lookup_app_l by done. }
    unfold unique_step in Hloop.
    destruct (decide (type x ∈ seen0)) as [Hin|Hnin].
    + injection Hloop as <- <-. exists indices. split_and!; [done| |done].
      intros i. rewrite first_index_snoc, Hmem. split; [auto|].
      intros [?|[_ Hnew]]; [done|]. by apply Hseen in Hin.
    + injection Hloop as <- <-. exists (indices ++ [length l]). split_and!.
      * apply StronglySorted_app_2; [|done|repeat constructor].
        intros i j Hi Hj. apply list_elem_of_singleton in Hj as ->.
        apply Hmem in Hi as (v & Hi & _). by apply lookup_lt_Some in Hi.
      * intros i. rewrite first_index_snoc, elem_of_app, Hmem.
        rewrite list_elem_of_singleton, <- Hseen. split.
        -- intros [?| ->]; auto.
        -- intros [?|[-> _]]; auto.
      * apply Forall2_app; [done|]. constructor; [|constructor].
        by rewrite list_lookup_middle.
Qed.

(** C9. The de-duplication of [print_results] keeps the findings of its
    input that are the first of their type, in the order of the input, so
    one finding per type: the list it builds is the input read at the
    positions, in ascending order, at which a type occurs for the first
    time.  Findings of types A, B, A, C, B in that order leave the first,
    the second and the fourth. *)
Theorem unique_vulnerabilities_first_per_type (vulnerabilities : list finding) :
  unique_vulnerabilities vulnerabilities `sublist_of` vulnerabilities
  ∧ NoDup (type <$> unique_vulnerabilities vulnerabilities)
  ∧ (∀ v, v ∈ unique_vulnerabilities vulnerabilities
          ↔ first_of_its_type vulnerabilities v)
  ∧ (∀ a1 b1 a2 c1 b2,
       vulnerabilities = [a1; b1; a2; c1; b2] →
       type a2 = type a1 → type b2 = type b1 →
       type a1 ≠ type b1 → type a1 ≠ type c1 → type b1 ≠ type c1 →
       unique_vulnerabilities vulnerabilities = [a1; b1; c1])
  ∧ (∃ indices,
       StronglySorted lt indices
       ∧ (∀ i, i ∈ indices
               ↔ ∃ v, vulnerabilities !! i = Some v
                      ∧ ∀ j w, j < i → vulnerabilities !! j = Some w →
                               type w ≠ type v)
       ∧ Forall2 (λ v i, vulnerabilities !! i = Some v)
           (unique_vulnerabilities vulnerabilities) indices).
Proof.
  unfold unique_vulnerabilities.
  destruct (foldl unique_step ([], ∅) vulnerabilities) as [u seen] eqn:Hloop.
  destruct (unique_loop_spec _ _ _ Hloop) as (_ & Hsub & Hnd & Hkept).
  split_and!; try done.
  - intros a1 b1 a2 c1 b2 -> Ha Hb Hab Hac Hbc.
    change u with (u, seen).1. rewrite <- Hloop.
    by apply unique_vulnerabilities_five.
  - exact (unique_loop_indices _ _ _ Hloop).
Qed.

Lemma unique_vulnerabilities_first_per_type_witness :
  unique_vulnerabilities
    [sql_injection_finding 0; xss_finding 1; sql_injection_finding 2;
     exposed_secrets_finding 1; xss_finding 4]
  = [sql_injection_finding 0; xss_finding 1; exposed_secrets_finding 1].
Proof.
  destruct (unique_vulnerabilities_first_per_type
              [sql_injection_finding 0; xss_finding 1; sql_injection_finding 2;
               exposed_secrets_finding 1; xss_finding 4]) as (_ & _ & _ & H & _).
  apply (H _ _ _ _ _ eq_refl); (reflexivity || discriminate).
Defined.

(** The positions and the order leave one list only: two lists read off
    the input at the ascending first positions of the types are equal. *)
Lemma first_positions_determine (l u1 u2 : list finding) (is1 is2 : list nat) :
  StronglySorted lt is1 → StronglySorted lt is2 →
  (∀ i, i ∈ is1 ↔ first_index l i) → (∀ i, i ∈ is2 ↔ first_index l i) →
  Forall2 (λ v i, l !! i = Some v) u1 is1 →
  Forall2 (λ v i, l !! i = Some v) u2 is2 →
  u1 = u2.
Proof.
  intros Hs1 Hs2 Hm1 Hm2 H1 H2.
  assert (is1 = is2) as <-.
  { apply (StronglySorted_unique_strong lt); [intros; lia|done|done|].
    apply NoDup_Permutation; [by apply StronglySorted_lt_NoDup..|].
    intros i. by rewrite Hm1, Hm2. }
  clear Hs1 Hs2 Hm1 Hm2. revert u2 H2.
  induction H1 as [|v i u1 is1 Hv _ IH]; intros u2 H2.
  - by apply Forall2_nil_inv_r in H2.
  - apply Forall2_cons_inv_r in H2 as (w & u2' & Hw & H2 & ->).
    f_equal; [congruence|by apply IH].
Qed.

(** The list a finding recurs in: the first occurrence is the one kept, so
    the order is that of the first occurrences. *)
Example unique_vulnerabilities_recurring :
  unique_vulnerabilities
    [sql_injection_finding 0; xss_finding 0; sql_injection_finding 0]
  = [sql_injection_finding 0; xss_finding 0].
Proof. vm_compute. reflexivity. Qed.

(** ** The URL analyzer *)

Lemma url_scheme_spec (url s : string) :
  url_scheme url = Some s → ∃ r, url = s +:+ "://" +:+ r.
Proof.
  revert s. induction url as [|c url IH]; intros s; cbn [url_scheme].
  - discriminate.
  - destruct (startswith (String c url) "://") eqn:E.
    + intros [= <-]. by apply startswith_spec in E.
    + destruct (url_scheme url) as [s'|]; [|discriminate].
      intros [= <-]. destruct (IH s' eq_refl) as [r ->]. by exists r.
Qed.

(** The test the source makes, [url.startswith('http://')], says that the
    scheme is http. *)
Lemma url_scheme_http (url : string) :
  startswith url "http://" = true ↔ url_scheme url = Some "http".
Proof.
  split.
  - intros H. apply startswith_spec in H as [r ->]. reflexivity.
  - intros H. apply url_scheme_spec in H as [r ->]. reflexivity.
Qed.




(** C4. On a string that [validators.url] turns down, [analyze_url] sends
    no request and returns, without raising, a list of one finding, of type
    Invalid URL and risk level Low. *)
Theorem analyze_url_invalid (validators_url : string → bool)
    (requests_get : string → outcome) (url : string) :
  validators_url url = false →
  ∃ f, analyze_url validators_url requests_get url = ([], Returns [f])
       ∧ type f = "Invalid URL"
       ∧ risk_level f = "Low".
Proof.
  intros Hvalid. exists invalid_url_finding. split_and!; [|reflexivity..].
  unfold analyze_url. by rewrite Hvalid.
Qed.

Lemma analyze_url_invalid_witness :
  ∃ f, analyze_url prefix_validator bare_network "not a url"
       = ([], Returns [f])
       ∧ type f = "Invalid URL"
       ∧ risk_level f = "Low".
Proof.
  apply (analyze_url_invalid prefix_validator bare_network "not a url").
  reflexivity.
Defined.

(** ** The log analyzer *)

Lemma drop_0 (s : string) : drop 0 s = s.
Proof. by destruct s. Qed.

Lemma drop_cons (n : nat) (c : ascii) (s : string) :
  drop (S n) (String c s) = drop n s.
Proof. reflexivity. Qed.

Lemma drop_empty (n : nat) : drop n EmptyString = EmptyString.
Proof. by destruct n. Qed.

Lemma drop_drop (m n : nat) (s : string) : drop m (drop n s) = drop (n + m) s.
Proof.
  revert s. induction n as [|n IH]; intros s; [by rewrite drop_0|].
  destruct s as [|c s]; [by rewrite !drop_empty|]. apply IH.
Qed.

Lemma length_drop (n : nat) (s : string) :
  String.length (drop n s) = String.length s - n.
Proof.
  revert s. induction n as [|n IH]; intros s.
  - rewrite drop_0. lia.
  - destruct s as [|c s]; [done|]. apply IH.
Qed.

Lemma take_app_length (s t : string) : take (String.length s) (s +:+ t) = s.
Proof.
  induction s as [|c s IH]; [by destruct t|].
  rewrite string_app_cons. simpl. by rewrite IH.
Qed.

Lemma length_take (n : nat) (s : string) :
  n ≤ String.length s → String.length (take n s) = n.
Proof.
  revert s. induction n as [|n IH]; intros s Hn; [by destruct s|].
  destruct s as [|c s]; simpl in *; [lia|]. rewrite IH; [done|lia].
Qed.

Lemma drop_succ (n : nat) (s : string) (c : ascii) (s' : string) :
  drop n s = String c s' → drop (S n) s = s'.
Proof.
  intros H. replace (S n) with (n + 1) by lia.
  by rewrite <- drop_drop, H.
Qed.

(** The line number [analyze_logs] prints is the one [split] would give
    the offset. *)
Lemma count_newline_lines (s : string) (n : nat) :
  count_newline s n + 1 = length (split_newline (take n s)).
Proof.
  revert s. induction n as [|n IH]; intros s; [by destruct s|].
  destruct s as [|c s]; [done|]. cbn [count_newline take split_newline].
  specialize (IH s). destruct (is_newline c).
  - simpl. lia.
  - destruct (split_newline (take n s)); simpl in *; lia.
Qed.

(** *** What the traversal pattern matches *)

Lemma lit_match_dot (c : ascii) : lit_match "." c = bool_decide ("."%char = c).
Proof. by destruct c as [[] [] [] [] [] [] [] []]. Qed.

Lemma startswith_dotdot (t : string) :
  startswith t ".." = true → ∃ r, t = ".." +:+ r ∧ drop 2 t = r.
Proof.
  intros H. apply startswith_spec in H as [r ->]. by exists r.
Qed.

Lemma ends_dotdot (q : option ascii) (t : string) :
  ends (lit "..") (q, t)
  = if startswith t ".." then [(Some "."%char, drop 2 t)] else [].
Proof.
  destruct t as [|c1 [|c2 t]]; cbn [lit ends cset_match fst snd startswith];
    rewrite ?lit_match_dot.
  - reflexivity.
  - by destruct (bool_decide ("."%char = c1)).
  - destruct (bool_decide_reflect ("."%char = c1)) as [<-|]; [|reflexivity].
    cbn [mbind list_bind ends cset_match fst snd andb app].
    rewrite lit_match_dot.
    by destruct (bool_decide_reflect ("."%char = c2)) as [<-|].
Qed.

Lemma head_bind_cons {A B} (f : A → list B) (x : A) (l : list A) :
  head ((x :: l) ≫= f)
  = match head (f x) with Some y => Some y | None => head (l ≫= f) end.
Proof. cbn [mbind list_bind]. by destruct (f x). Qed.

(** A lazy star first tries to take nothing. *)
Lemma head_star_ends_lazy (k : cset) (q : option ascii) (t : string) :
  head (star_ends k false q t) = Some (q, t).
Proof. destruct t as [|c t]; [done|]. simpl. by destruct (cset_match k c). Qed.

(** The second half of the pattern, [\.\..*?], at a cursor. *)
Lemma head_ends_second_half (q : option ascii) (t : string) :
  head (ends (Seq (lit "..") (Seq (Star Dot false) Eps)) (q, t))
  = if startswith t ".." then Some (Some "."%char, drop 2 t) else None.
Proof.
  cbn [ends]. rewrite ends_dotdot. destruct (startswith t ".."); [|done].
  rewrite head_bind_cons. cbn [fst snd].
  destruct (star_ends Dot false (Some "."%char) (drop 2 t)) as [|e l] eqn:E.
  - pose proof (head_star_ends_lazy Dot (Some "."%char) (drop 2 t)) as H.
    by rewrite E in H.
  - pose proof (head_star_ends_lazy Dot (Some "."%char) (drop 2 t)) as H.
    rewrite E in H. injection H as ->. reflexivity.
Qed.

(** The lazy [.*?] followed by the second half stops at the nearest [..]. *)
Lemma head_star_then_second_half (q : option ascii) (t : string) :
  head (star_ends Dot false q t
          ≫= ends (Seq (lit "..") (Seq (Star Dot false) Eps)))
  = (λ k, (Some "."%char, drop (k + 2) t)) <$> gap t.
Proof.
  revert q. induction t as [|c t IH]; intros q.
  - reflexivity.
  - cbn [star_ends cset_match gap].
    destruct (is_newline c) eqn:Hnl; cbn [negb].
    + rewrite head_bind_cons, head_ends_second_half.
      assert (startswith (String c t) ".." = false) as ->; [|done].
      apply bool_decide_eq_true in Hnl as ->. by destruct t.
    + rewrite head_bind_cons, head_ends_second_half.
      destruct (startswith (String c t) ".."); [done|].
      rewrite IH. by destruct (gap t).
Qed.

(** The pattern matches at a cursor when the text starts with [..] and a
    second [..] follows on the same line; it then takes the text up to the
    nearest one. *)
Lemma head_ends_traversal (q : option ascii) (s : string) :
  head (ends traversal (q, s))
  = if startswith s ".."
    then (λ k, (Some "."%char, drop (k + 4) s)) <$> gap (drop 2 s)
    else None.
Proof.
  unfold traversal, cat. cbn [foldr]. cbn [ends]. rewrite ends_dotdot.
  destruct (startswith s ".."); [|done].
  rewrite head_bind_cons. cbn [fst snd].
  change (λ p : cursor, ends (lit "..") p ≫= λ p0, star_ends Dot false p0.1 p0.2 ≫= λ p1, [p1])
    with (ends (Seq (lit "..") (Seq (Star Dot false) Eps))).
  rewrite head_star_then_second_half.
  destruct (gap (drop 2 s)) as [k|]; [|done].
  cbn [fmap option_fmap option_map]. rewrite drop_drop. do 3 f_equal. lia.
Qed.

Lemma gap_spec (t : string) (k : nat) :
  gap t = Some k
  ↔ ∃ x r, t = x +:+ ".." +:+ r ∧ String.length x = k ∧ contains x nl = false
           ∧ ∀ j, j < k → startswith (drop j t) ".." = false.
Proof.
  split.
  - revert k. induction t as [|c t IH]; intros k; cbn [gap].
    + discriminate.
    + destruct (startswith (String c t) "..") eqn:E.
      * intros [= <-]. apply startswith_spec in E as [r E].
        exists EmptyString, r. split_and!; [done..|]. intros j Hj. lia.
      * destruct (is_newline c) eqn:Hnl; [discriminate|].
        destruct (gap t) as [k'|]; [|discriminate]. intros [= <-].
        destruct (IH k' eq_refl) as (x & r & -> & Hlen & Hx & Hmin).
        exists (String c x), r. split_and!.
        -- reflexivity.
        -- simpl. by rewrite Hlen.
        -- cbn [contains startswith nl]. rewrite Hx, orb_false_r.
           apply andb_false_iff. left. apply bool_decide_eq_false.
           apply bool_decide_eq_false in Hnl. congruence.
        -- intros [|j] Hj; [by rewrite drop_0|]. rewrite drop_cons.
           apply Hmin. lia.
  - intros (x & r & -> & <- & Hx & Hmin).
    induction x as [|c x IH].
    + reflexivity.
    + change (String c x +:+ ".." +:+ r) with (String c (x +:+ ".." +:+ r)) in *.
      cbn [gap].
      assert (startswith (String c (x +:+ ".." +:+ r)) ".." = false) as ->.
      { assert (H0 : 0 < String.length (String c x)) by (simpl; lia).
        apply Hmin in H0. by rewrite drop_0 in H0. }
      cbn [contains startswith nl] in Hx.
      apply orb_false_iff in Hx as [Hc Hx].
      rewrite andb_true_r in Hc.
      assert (is_newline c = false) as ->.
      { apply bool_decide_eq_false. apply bool_decide_eq_false in Hc.
        congruence. }
      rewrite IH; [done|done|]. intros j Hj.
      assert (HS : S j < String.length (String c x)) by (simpl; lia).
      apply Hmin in HS. by rewrite drop_cons in HS.
Qed.

Lemma match_at_head (r : regex) (p : cursor) :
  match_at r p = (λ e, String.length p.2 - String.length e.2) <$> head (ends r p).
Proof. unfold match_at. by destruct (ends r p). Qed.

Lemma match_at_traversal (q : option ascii) (s : string) :
  match_at traversal (q, s)
  = if startswith s ".." then (λ k, k + 4) <$> gap (drop 2 s) else None.
Proof.
  rewrite match_at_head, head_ends_traversal.
  destruct (startswith s "..") eqn:Hs; [|done].
  destruct (gap (drop 2 s)) as [k|] eqn:Hgap; [|done].
  cbn [fmap option_fmap option_map fst snd]. f_equal.
  apply gap_spec in Hgap as (x & r & Hx & Hlen & _).
  apply startswith_dotdot in Hs as (t & -> & Ht).
  assert (Hl : String.length (drop 2 (".." +:+ t)) = String.length (x +:+ ".." +:+ r))
    by by rewrite Hx.
  rewrite length_drop in *. rewrite !string_length_app in Hl. simpl in Hl.
  rewrite string_length_app. simpl. lia.
Qed.

Lemma match_at_traversal_bounds (q : option ascii) (s : string) (n : nat) :
  match_at traversal (q, s) = Some n → 4 ≤ n ≤ String.length s.
Proof.
  rewrite match_at_traversal. destruct (startswith s "..") eqn:Hs; [|done].
  destruct (gap (drop 2 s)) as [k|] eqn:Hgap; [|done]. intros [= <-].
  apply gap_spec in Hgap as (x & r & Hx & Hlen & _).
  apply startswith_dotdot in Hs as (t & -> & Ht).
  assert (Hl : String.length (drop 2 (".." +:+ t)) = String.length (x +:+ ".." +:+ r))
    by by rewrite Hx.
  rewrite length_drop in Hl. rewrite !string_length_app in Hl. simpl in Hl.
  rewrite string_length_app. simpl. lia.
Qed.

(** What the matcher finds at a cursor is the signature, and nothing else. *)
Lemma traversal_at_iff (q : option ascii) (s g : string) :
  traversal_at s g ↔ ∃ n, match_at traversal (q, s) = Some n ∧ g = take n s.
Proof.
  rewrite match_at_traversal. split.
  - intros (x & r & -> & -> & Hx & Hmin).
    exists (String.length x + 4).
    rewrite !string_app_assoc. cbn [startswith bool_decide decide_rel andb].
    assert (gap (x +:+ ".." +:+ r) = Some (String.length x)) as Hgap.
    { apply gap_spec. exists x, r. split_and!; [done..|]. intros j Hj.
      specialize (Hmin j Hj). rewrite !string_app_assoc in Hmin.
      by rewrite <- drop_drop in Hmin. }
    split.
    + change (drop 2 (".." +:+ x +:+ ".." +:+ r)) with (x +:+ ".." +:+ r).
      by rewrite Hgap.
    + rewrite <- !string_app_assoc.
      replace (String.length x + 4)
        with (String.length ((".." +:+ x) +:+ "..")).
      * by rewrite take_app_length.
      * rewrite !string_length_app. simpl. lia.
  - intros (n & Hn & ->).
    destruct (startswith s "..") eqn:Hs; [|done].
    destruct (gap (drop 2 s)) as [k|] eqn:Hgap; [|done].
    injection Hn as <-.
    apply gap_spec in Hgap as (x & r & Hx & Hlen & Hnl & Hmin).
    apply startswith_dotdot in Hs as (t & -> & Ht).
    change (drop 2 (".." +:+ t)) with t in *. subst t.
    exists x, r.
    assert (take (k + 4) (".." +:+ x +:+ ".." +:+ r) = ".." +:+ x +:+ "..") as ->.
    { rewrite <- !string_app_assoc.
      replace (k + 4) with (String.length ((".." +:+ x) +:+ "..")).
      - by rewrite take_app_length.
      - rewrite !string_length_app. simpl. lia. }
    split_and!; [done|by rewrite !string_app_assoc|done|].
    intros j Hj. rewrite <- drop_drop. apply Hmin. lia.
Qed.

Lemma traversal_at_empty (g : string) : ¬ traversal_at EmptyString g.
Proof. intros (x & r & -> & H & _). discriminate H. Qed.

(** *** The matches [finditer] lists *)

Lemma finditer_from_traversal (logs : string) :
  ∀ s prev start skip,
    drop start logs = s →
    Forall (λ m, start + skip ≤ m.1 ∧ traversal_at (drop m.1 logs) m.2)
      (finditer_from traversal prev s start skip)
    ∧ StronglySorted ends_before (finditer_from traversal prev s start skip)
    ∧ (∀ j g, skip ≤ j → traversal_at (drop (start + j) logs) g →
         ∃ m, m ∈ finditer_from traversal prev s start skip
              ∧ m.1 ≤ start + j < m.1 + String.length m.2).
Proof.
  induction s as [|c s IH]; intros prev start skip Hs.
  - assert (finditer_from traversal prev EmptyString start skip = []) as ->
      by by destruct skip.
    split_and!; [constructor..|].
    intros j g _ Hg. rewrite <- drop_drop, Hs, drop_empty in Hg.
    by apply traversal_at_empty in Hg.
  - apply drop_succ in Hs as Hs'. destruct skip as [|k]; cbn [finditer_from].
    + destruct (match_at traversal (prev, String c s)) as [n|] eqn:Hm.
      * apply match_at_traversal_bounds in Hm as Hn.
        destruct (IH (Some c) (S start) (pred n) Hs') as (Hall & Hsort & Hfound).
        assert (Hlen : String.length (take n (String c s)) = n)
          by (apply length_take; lia).
        split_and!.
        -- constructor.
           ++ cbn [fst snd]. split; [lia|]. rewrite Hs.
              apply (traversal_at_iff prev). eauto.
           ++ eapply Forall_impl; [exact Hall|]. intros m [? ?]. split; [lia|done].
        -- constructor; [done|]. eapply Forall_impl; [exact Hall|].
           intros m [? _]. unfold ends_before. cbn [fst snd]. lia.
        -- intros j g _ Hg. destruct (decide (j < n)) as [Hj|Hj].
           ++ exists (start, take n (String c s)). split; [left|].
              cbn [fst snd]. lia.
           ++ destruct j as [|j]; [lia|].
              destruct (Hfound j g) as (m & Hin & Hm'); [lia| |].
              { by replace (S start + j) with (start + S j) by lia. }
              exists m. split; [by right|lia].
      * destruct (IH (Some c) (S start) 0 Hs') as (Hall & Hsort & Hfound).
        split_and!.
        -- eapply Forall_impl; [exact Hall|]. intros m [? ?]. split; [lia|done].
        -- done.
        -- intros [|j] g _ Hg.
           ++ rewrite Nat.add_0_r, Hs in Hg.
              apply (traversal_at_iff prev) in Hg as (n & Hn & _). congruence.
           ++ destruct (Hfound j g) as (m & Hin & Hm'); [lia| |].
              { by replace (S start + j) with (start + S j) by lia. }
              exists m. split; [done|lia].
    + destruct (IH (Some c) (S start) k Hs') as (Hall & Hsort & Hfound).
      split_and!.
      * eapply Forall_impl; [exact Hall|]. intros m [? ?]. split; [lia|done].
      * done.
      * intros [|j] g Hj Hg; [lia|].
        destruct (Hfound j g) as (m & Hin & Hm'); [lia| |].
        { by replace (S start + j) with (start + S j) by lia. }
        exists m. split; [done|lia].
Qed.

Lemma foldl_traversal_finding (logs : string) (l : list (nat * string))
    (acc : list finding) :
  foldl (λ vulnerabilities '(start, group),
           vulnerabilities ++ [traversal_finding logs start group]) acc l
  = acc ++ ((λ m, traversal_finding logs m.1 m.2) <$> l).
Proof.
  revert acc. induction l as [|[start group] l IH]; intros acc; simpl.
  - by rewrite app_nil_r.
  - by rewrite IH, <- app_assoc.
Qed.

(** [analyze_logs] gives one finding for each match, in order. *)
Lemma analyze_logs_fmap (logs : string) :
  analyze_logs logs
  = (λ m, traversal_finding logs m.1 m.2) <$> finditer traversal logs.
Proof. apply foldl_traversal_finding. Qed.

(** C2, as the code has it.  [analyze_logs] gives one Directory Traversal
    finding of High risk for each match that a search of the whole text
    lists, in order; a match is [..], then characters other than a newline,
    up to the nearest [..] that follows, so it never runs over a line end;
    the matches do not overlap, and every place where the signature occurs
    lies inside one of them; the location is "Line n: " followed by the
    matched text, with n one more than the number of newlines before the
    start of the match, which is the number of the line the match starts
    on.  In the log [a], [b], [..\/..\/etc] the one match is on line 3. *)
Theorem analyze_logs_matches (logs : string) :
  analyze_logs logs
  = (λ m, traversal_finding logs m.1 m.2) <$> finditer traversal logs
  ∧ (∀ start group,
       type (traversal_finding logs start group) = "Directory Traversal"
       ∧ risk_level (traversal_finding logs start group) = "High"
       ∧ location (traversal_finding logs start group)
         = Some ("Line " +:+ str (count_newline logs start + 1) +:+ ": " +:+ group)
       ∧ count_newline logs start + 1
         = length (split_newline (take start logs)))
  ∧ Forall (λ m, traversal_at (drop m.1 logs) m.2) (finditer traversal logs)
  ∧ StronglySorted ends_before (finditer traversal logs)
  ∧ (∀ start group, traversal_at (drop start logs) group →
       ∃ m, m ∈ finditer traversal logs
            ∧ m.1 ≤ start < m.1 + String.length m.2)
  ∧ finditer traversal traversal_log = [(4, "..\/..")]
  ∧ location (traversal_finding traversal_log 4 "..\/..")
    = Some "Line 3: ..\/..".
Proof.
  destruct (finditer_from_traversal logs logs None 0 0 (drop_0 logs))
    as (Hall & Hsort & Hfound).
  split_and!.
  - apply analyze_logs_fmap.
  - intros start group. split_and!; [reflexivity..|apply count_newline_lines].
  - eapply Forall_impl; [exact Hall|]. by intros m [_ ?].
  - exact Hsort.
  - intros start group Hg. apply (Hfound start group); [lia|done].
  - vm_compute. reflexivity.
  - vm_compute. reflexivity.
Qed.

(** C2, as it is worded, fails: in the text [..], newline, [..] the
    signature of the wording, two [..] with any characters between them,
    occurs at offset 0, and [analyze_logs] reports nothing. *)
Lemma analyze_logs_split_log :
  (∃ start group, spec_signature_at (drop start split_log) group)
  ∧ analyze_logs split_log = [].
Proof.
  split.
  - exists 0, split_log. exists nl, EmptyString. split; reflexivity.
  - vm_compute. reflexivity.
Qed.

(** C5, as it is worded, fails where a mitigation keyword is present: the
    line [cur.prepare('SELECT a FROM t WHERE b UNION SELECT c FROM u')]
    matches two SQL-injection patterns and gets no SQL Injection finding. *)
Lemma analyze_code_prepared_union :
  split_newline prepared_union_line !! 0 = Some prepared_union_line
  ∧ matching_patterns SqlInjection prepared_union_line = 2
  ∧ length (findings_at (analyze_code prepared_union_line)
              "SQL Injection" (0 + 1)) = 0.
Proof. split_and!; vm_compute; reflexivity. Qed.


(** ** Letter case *)

Lemma char_lower_idemp (c : ascii) : char_lower (char_lower c) = char_lower c.
Proof. by destruct c as [[] [] [] [] [] [] [] []]. Qed.

Lemma is_newline_lower (c : ascii) : is_newline (char_lower c) = is_newline c.
Proof. by destruct c as [[] [] [] [] [] [] [] []]. Qed.

Lemma is_space_lower (c : ascii) : is_space (char_lower c) = is_space c.
Proof. by destruct c as [[] [] [] [] [] [] [] []]. Qed.

Lemma is_word_lower (c : ascii) : is_word (char_lower c) = is_word c.
Proof. by destruct c as [[] [] [] [] [] [] [] []]. Qed.

Lemma lower_idemp (s : string) : lower (lower s) = lower s.
Proof.
  induction s as [|c s IH]; [done|]. simpl. by rewrite char_lower_idemp, IH.
Qed.

Lemma length_lower (s : string) : String.length (lower s) = String.length s.
Proof. induction s as [|c s IH]; simpl; by f_equal. Qed.

Lemma cset_match_lower (k : cset) (t : ascii) :
  cset_match k (char_lower t) = cset_match k t.
Proof.
  destruct k as [c| | |cs]; simpl.
  - unfold lit_match. by rewrite char_lower_idemp.
  - by rewrite is_newline_lower.
  - apply is_space_lower.
  - induction cs as [|c cs IH]; [done|]. simpl.
    unfold lit_match at 1 3. by rewrite char_lower_idemp, IH.
Qed.

Lemma star_ends_lower (k : cset) (greedy : bool) (q : option ascii) (t : string) :
  star_ends k greedy (char_lower <$> q) (lower t)
  = lower_cursor <$> star_ends k greedy q t.
Proof.
  revert q. induction t as [|c t IH]; intros q; [done|].
  cbn [lower star_ends]. rewrite cset_match_lower.
  destruct (cset_match k c); [|done]. specialize (IH (Some c)).
  destruct greedy.
  - rewrite fmap_app. by rewrite <- IH.
  - rewrite fmap_cons. by rewrite <- IH.
Qed.

Lemma at_boundary_lower (p : cursor) :
  at_boundary (lower_cursor p) = at_boundary p.
Proof.
  destruct p as [[c|] [|d t]]; unfold at_boundary, word_before, word_after;
    simpl; by rewrite ?is_word_lower.
Qed.

(** The matcher finds in the lower-cased text what it finds in the text. *)
Lemma ends_lower (r : regex) (p : cursor) :
  ends r (lower_cursor p) = lower_cursor <$> ends r p.
Proof.
  revert p. induction r as [|k|k g| |r1 IH1 r2 IH2|r1 IH1 r2 IH2]; intros p.
  - done.
  - destruct p as [q [|c t]]; [done|]. cbn [ends lower_cursor lower fst snd].
    rewrite cset_match_lower. by destruct (cset_match k c).
  - apply star_ends_lower.
  - cbn [ends]. rewrite at_boundary_lower. by destruct (at_boundary p).
  - cbn [ends]. rewrite IH1.
    induction (ends r1 p) as [|e es IHes]; [done|].
    rewrite fmap_cons. cbn [mbind list_bind]. rewrite fmap_app, IH2.
    f_equal. apply IHes.
  - cbn [ends]. by rewrite fmap_app, IH1, IH2.
Qed.

Lemma match_at_lower (r : regex) (p : cursor) :
  match_at r (lower_cursor p) = match_at r p.
Proof.
  unfold match_at. rewrite ends_lower. destruct (ends r p) as [|e es]; [done|].
  rewrite fmap_cons. cbn [lower_cursor snd]. by rewrite !length_lower.
Qed.

Lemma search_from_lower (r : regex) (q : option ascii) (s : string) (n : nat) :
  search_from r (char_lower <$> q) (lower s) n = search_from r q s n.
Proof.
  revert q n. induction s as [|c s IH]; intros q n; cbn [lower search_from].
  - change (char_lower <$> q, EmptyString) with (lower_cursor (q, EmptyString)).
    by rewrite match_at_lower.
  - change (char_lower <$> q, String (char_lower c) (lower s))
      with (lower_cursor (q, String c s)).
    rewrite match_at_lower. destruct (match_at r (q, String c s)); [done|].
    apply (IH (Some c)).
Qed.

Lemma any_search_lower (patterns : list regex) (line : string) :
  any_search patterns (lower line) = any_search patterns line.
Proof.
  unfold any_search. induction patterns as [|r rs IH]; [done|]. simpl.
  rewrite IH. unfold search. by rewrite (search_from_lower r None).
Qed.

Lemma reports_lower (c : category) (line : string) :
  reports c (lower line) = reports c line.
Proof.
  unfold reports, matches, suppressed. rewrite any_search_lower.
  by rewrite lower_idemp.
Qed.

Lemma split_newline_lower (s : string) :
  split_newline (lower s) = lower <$> split_newline s.
Proof.
  induction s as [|c s IH]; [done|]. cbn [lower split_newline].
  rewrite is_newline_lower, IH. destruct (is_newline c); [done|].
  by destruct (split_newline s).
Qed.

Lemma enumerate_from_fmap {A B} (f : A → B) (l : list A) (k : nat) :
  enumerate_from k (f <$> l) = (λ p, (p.1, f p.2)) <$> enumerate_from k l.
Proof.
  revert k. induction l as [|x l IH]; intros k; [done|].
  simpl. by rewrite IH.
Qed.

Lemma hits_lower (c : category) (lines : list string) :
  hits c (lower <$> lines) = hits c lines.
Proof.
  unfold hits, enumerate. rewrite enumerate_from_fmap.
  induction (enumerate_from 0 lines) as [|[n line] l IH]; [done|].
  rewrite fmap_cons, !filter_cons. cbn [fst snd]. rewrite reports_lower.
  destruct (decide (reports c line = true)); [|done].
  rewrite !fmap_cons. cbn [fst]. by rewrite IH.
Qed.

(** X1. The findings of [analyze_code] do not depend on the case of the
    letters: the lower-cased code gets the same findings. *)
Theorem analyze_code_lower (code : string) :
  analyze_code (lower code) = analyze_code code.
Proof.
  rewrite !analyze_code_passes, split_newline_lower.
  unfold categories. cbn [mbind list_bind]. by rewrite !hits_lower.
Qed.

(** ** Literal patterns *)

Lemma ends_lit (kw : string) (q : option ascii) (t : string) :
  ends (lit kw) (q, t) ≠ [] ↔ ∃ k r, t = k +:+ r ∧ lower k = lower kw.
Proof.
  revert q t. induction kw as [|c kw IH]; intros q t.
  - split; [|done]. intros _. by exists EmptyString, t.
  - cbn [lit ends fst snd]. destruct t as [|d t].
    + split; [done|]. intros (k & r & Ht & Hk).
      destruct k; [discriminate Hk|discriminate Ht].
    + cbn [cset_match]. unfold lit_match.
      destruct (bool_decide_reflect (char_lower d = char_lower c)) as [Hd|Hd].
      * cbn [mbind list_bind]. rewrite app_nil_r, IH. split.
        -- intros (k & r & -> & Hk). exists (String d k), r.
           split; [done|]. simpl. by rewrite Hd, Hk.
        -- intros (k & r & Ht & Hk). destruct k as [|d' k]; [discriminate Hk|].
           rewrite string_app_cons in Ht. injection Ht as -> ->.
           simpl in Hk. injection Hk as _ Hk. by exists k, r.
      * split; [done|]. intros (k & r & Ht & Hk).
        destruct k as [|d' k]; [discriminate Hk|].
        rewrite string_app_cons in Ht. injection Ht as -> ->.
        simpl in Hk. by injection Hk as Hk _.
Qed.

Lemma match_at_is_Some (r : regex) (p : cursor) :
  is_Some (match_at r p) ↔ ends r p ≠ [].
Proof.
  unfold match_at. destruct (ends r p); split; done.
Qed.

(** A pattern without operators is found exactly where its text stands, the
    case of the letters apart. *)
Lemma search_from_lit (kw : string) (q : option ascii) (s : string) (n : nat) :
  is_Some (search_from (lit kw) q s n)
  ↔ ∃ a k b, s = a +:+ k +:+ b ∧ lower k = lower kw.
Proof.
  revert q n. induction s as [|c s IH]; intros q n; cbn [search_from].
  - destruct (match_at (lit kw) (q, EmptyString)) as [m|] eqn:Hm.
    + split; [|by eexists]. intros _.
      assert (Hs : is_Some (match_at (lit kw) (q, EmptyString))) by by rewrite Hm.
      apply match_at_is_Some, ends_lit in Hs as (k & r & Hk & Hl).
      by exists EmptyString, k, r.
    + split; [by intros [? ?]|]. intros (a & k & b & Hs & Hl).
      destruct a; [|discriminate Hs].
      assert (Hn : is_Some (match_at (lit kw) (q, EmptyString))).
      { apply match_at_is_Some, ends_lit. by exists k, b. }
      rewrite Hm in Hn. by destruct Hn.
  - destruct (match_at (lit kw) (q, String c s)) as [m|] eqn:Hm.
    + split; [|by eexists]. intros _.
      assert (Hs : is_Some (match_at (lit kw) (q, String c s))) by by rewrite Hm.
      apply match_at_is_Some, ends_lit in Hs as (k & r & Hk & Hl).
      by exists EmptyString, k, r.
    + rewrite IH. split.
      * intros (a & k & b & -> & Hl). by exists (String c a), k, b.
      * intros (a & k & b & Hs & Hl). destruct a as [|c' a].
        -- assert (Hn : is_Some (match_at (lit kw) (q, String c s))).
           { apply match_at_is_Some, ends_lit. by exists k, b. }
           rewrite Hm in Hn. by destruct Hn.
        -- rewrite string_app_cons in Hs. injection Hs as _ ->. by exists a, k, b.
Qed.

Ltac in_table :=
  repeat first [apply list_elem_of_here | apply list_elem_of_further].

Lemma any_search_lit (patterns : list regex) (kw pat line : string) :
  lit pat ∈ patterns → lower pat = kw → ci_substring kw line →
  any_search patterns line = true.
Proof.
  intros Hin Hpat (a & k & b & Hline & Hk). unfold any_search.
  apply existsb_exists. exists (lit pat). split; [by apply list_elem_of_In|].
  apply bool_decide_eq_true. apply search_from_lit. exists a, k, b.
  split; [done|congruence].
Qed.

(** X2. A line that holds [password] or [credentials] in any case gets an
    Exposed Secrets finding; one that holds [ALLOW_ALL_ORIGINS] or
    [JWT_SECRET] in any case gets a Security Misconfiguration finding; one
    that holds [javascript:], [onerror=], [onload=] or [eval(] in any case,
    and neither [escape] nor [sanitize], gets an XSS finding. *)
Theorem analyze_code_literals (code : string) (i : nat) (line : string) :
  split_newline code !! i = Some line →
  (ci_substring "password" line ∨ ci_substring "credentials" line →
   ∃ f, f ∈ analyze_code code ∧ type f = "Exposed Secrets"
        ∧ location f = Some ("Line " +:+ str (i + 1)))
  ∧ (ci_substring "allow_all_origins" line ∨ ci_substring "jwt_secret" line →
     ∃ f, f ∈ analyze_code code ∧ type f = "Security Misconfiguration"
          ∧ location f = Some ("Line " +:+ str (i + 1)))
  ∧ (ci_substring "javascript:" line ∨ ci_substring "onerror=" line
     ∨ ci_substring "onload=" line ∨ ci_substring "eval(" line →
     ¬ ci_substring "escape" line → ¬ ci_substring "sanitize" line →
     ∃ f, f ∈ analyze_code code ∧ type f = "Cross-Site Scripting (XSS)"
          ∧ location f = Some ("Line " +:+ str (i + 1))).
Proof.
  intros Hline. split_and!.
  - intros Hkw. apply (finding_at_iff code ExposedSecrets i).
    exists line. split; [done|]. unfold reports, matches.
    cbn [patterns suppressed]. rewrite andb_true_r.
    destruct Hkw as [H|H].
    + eapply (any_search_lit exposed_secrets _ "password" _); [in_table|reflexivity|exact H].
    + eapply (any_search_lit exposed_secrets _ "credentials" _); [in_table|reflexivity|exact H].
  - intros Hkw. apply (finding_at_iff code InsecureConfigs i).
    exists line. split; [done|]. unfold reports, matches.
    cbn [patterns suppressed]. rewrite andb_true_r.
    destruct Hkw as [H|H].
    + eapply (any_search_lit insecure_configs _ "ALLOW_ALL_ORIGINS" _); [in_table|reflexivity|exact H].
    + eapply (any_search_lit insecure_configs _ "JWT_SECRET" _); [in_table|reflexivity|exact H].
  - intros Hkw Hesc Hsan. apply (finding_at_iff code Xss i).
    exists line. split; [done|]. unfold reports, matches.
    cbn [patterns suppressed]. apply andb_true_iff. split.
    + destruct Hkw as [H|[H|[H|H]]].
      * eapply (any_search_lit xss _ "javascript:" _); [in_table|reflexivity|exact H].
      * eapply (any_search_lit xss _ "onerror=" _); [in_table|reflexivity|exact H].
      * eapply (any_search_lit xss _ "onload=" _); [in_table|reflexivity|exact H].
      * eapply (any_search_lit xss _ "eval(" _); [in_table|reflexivity|exact H].
    + apply negb_true_iff, orb_false_iff. split.
      * destruct (contains (lower line) "escape") eqn:E; [|done].
        by apply contains_lower in E.
      * destruct (contains (lower line) "sanitize") eqn:E; [|done].
        by apply contains_lower in E.
Qed.

Lemma analyze_code_literals_witness :
  (∃ f, f ∈ analyze_code ("x = 1" +:+ nl +:+ "my PassWord here")
        ∧ type f = "Exposed Secrets"
        ∧ location f = Some ("Line " +:+ str (1 + 1)))
  ∧ (∃ f, f ∈ analyze_code "jwt_secret = 1"
          ∧ type f = "Security Misconfiguration"
          ∧ location f = Some ("Line " +:+ str (0 + 1)))
  ∧ (∃ f, f ∈ analyze_code "a.OnLoad=f"
          ∧ type f = "Cross-Site Scripting (XSS)"
          ∧ location f = Some ("Line " +:+ str (0 + 1))).
Proof.
  split_and!.
  - destruct (analyze_code_literals ("x = 1" +:+ nl +:+ "my PassWord here") 1
                "my PassWord here" eq_refl) as (H & _ & _).
    apply H. left. exists "my ", "PassWord", " here". split; reflexivity.
  - destruct (analyze_code_literals "jwt_secret = 1" 0 "jwt_secret = 1" eq_refl)
      as (_ & H & _).
    apply H. right. exists EmptyString, "jwt_secret", " = 1". split; reflexivity.
  - destruct (analyze_code_literals "a.OnLoad=f" 0 "a.OnLoad=f" eq_refl)
      as (_ & _ & H).
    apply H.
    + right. right. left. exists "a.", "OnLoad=", "f". split; reflexivity.
    + intros H'. apply contains_lower in H'. vm_compute in H'. discriminate H'.
    + intros H'. apply contains_lower in H'. vm_compute in H'. discriminate H'.
Defined.

(** ** Size and composition of [analyze_code] *)

Lemma length_enumerate_from {A} (l : list A) (k : nat) :
  length (enumerate_from k l) = length l.
Proof. revert k. induction l as [|x l IH]; intros k; simpl; by f_equal. Qed.

Lemma length_hits (c : category) (lines : list string) :
  length (hits c lines) ≤ length lines.
Proof.
  unfold hits, enumerate. rewrite length_fmap.
  etrans; [apply length_filter|]. by rewrite length_enumerate_from.
Qed.

(** X3. [analyze_code] returns at most four findings for each line of the
    code. *)
Theorem analyze_code_length (code : string) :
  length (analyze_code code) ≤ 4 * length (split_newline code).
Proof.
  rewrite analyze_code_passes. unfold categories. cbn [mbind list_bind].
  rewrite !length_app, !length_fmap. simpl.
  pose proof (length_hits SqlInjection (split_newline code)).
  pose proof (length_hits Xss (split_newline code)).
  pose proof (length_hits ExposedSecrets (split_newline code)).
  pose proof (length_hits InsecureConfigs (split_newline code)).
  lia.
Qed.

Lemma split_newline_app (a b : string) :
  split_newline (a +:+ nl +:+ b) = split_newline a ++ split_newline b.
Proof.
  induction a as [|c a IH]; [done|].
  rewrite string_app_cons. cbn [split_newline]. rewrite IH.
  destruct (is_newline c); [done|].
  assert (split_newline a ≠ []) by by destruct a as [|d a]; simpl; repeat case_match.
  by destruct (split_newline a).
Qed.

Lemma enumerate_from_app {A} (l1 l2 : list A) (k : nat) :
  enumerate_from k (l1 ++ l2)
  = enumerate_from k l1 ++ enumerate_from (k + length l1) l2.
Proof.
  revert k. induction l1 as [|x l1 IH]; intros k; simpl.
  - by rewrite Nat.add_0_r.
  - rewrite IH. do 3 f_equal. lia.
Qed.

Lemma enumerate_from_shift {A} (l : list A) (k n : nat) :
  enumerate_from (n + k) l = (λ p, (n + p.1, p.2)) <$> enumerate_from k l.
Proof.
  revert k. induction l as [|x l IH]; intros k; [done|]. simpl.
  f_equal. rewrite <- IH. f_equal. lia.
Qed.

Lemma hits_app (c : category) (l1 l2 : list string) :
  hits c (l1 ++ l2) = hits c l1 ++ ((λ m, length l1 + m) <$> hits c l2).
Proof.
  unfold hits, enumerate. rewrite enumerate_from_app, filter_app, fmap_app.
  f_equal. replace (0 + length l1) with (length l1 + 0) by lia.
  rewrite enumerate_from_shift.
  induction (enumerate_from 0 l2) as [|[n line] l IH]; [done|].
  rewrite fmap_cons, !filter_cons. cbn [fst snd].
  destruct (decide (reports c line = true)); [|done].
  rewrite !fmap_cons. cbn [fst]. by rewrite IH.
Qed.

(** X4. The findings of two pieces of code joined by a newline are those of
    the first piece and those of the second with their line numbers moved
    by the number of lines of the first; so the numbers of findings add up. *)
Theorem analyze_code_app (a b : string) :
  (∀ c n, finding_of c n ∈ analyze_code (a +:+ nl +:+ b)
          ↔ finding_of c n ∈ analyze_code a
            ∨ ∃ m, n = length (split_newline a) + m
                   ∧ finding_of c m ∈ analyze_code b)
  ∧ length (analyze_code (a +:+ nl +:+ b))
    = length (analyze_code a) + length (analyze_code b).
Proof.
  assert (Hin : ∀ code c n,
            finding_of c n ∈ analyze_code code ↔ n ∈ hits c (split_newline code)).
  { intros code c n. rewrite elem_of_analyze_code. split.
    - intros (c' & n' & Heq & Hn').
      assert (c = c' ∧ n = n') as [-> ->]; [|done].
      apply (finding_of_at c' c n n'). rewrite Heq.
      split; [apply type_finding_of|apply location_finding_of].
    - intros Hn. eauto. }
  split.
  - intros c n. rewrite !Hin, split_newline_app, hits_app, elem_of_app.
    rewrite list_elem_of_fmap. split.
    + intros [?|(m & -> & Hm)]; [by left|]. right. exists m. by rewrite Hin.
    + intros [?|(m & -> & Hm)]; [by left|]. right. exists m. by rewrite <- Hin.
  - rewrite !analyze_code_passes, split_newline_app. unfold categories.
    cbn [mbind list_bind]. rewrite !length_app, !length_fmap, !hits_app.
    rewrite !length_app, !length_fmap. simpl. lia.
Qed.

(** ** Size and composition of [analyze_logs] *)

Lemma take_drop (n : nat) (s : string) : take n s +:+ drop n s = s.
Proof.
  revert s. induction n as [|n IH]; intros s; [by destruct s|].
  destruct s as [|c s]; [done|]. simpl. rewrite string_app_cons. by rewrite IH.
Qed.

Lemma drop_app_length' (s t : string) : drop (0 + String.length s) (s +:+ t) = t.
Proof. induction s as [|c s IH]; [apply drop_0|]. apply IH. Qed.

Lemma traversal_at_bounds (logs : string) (m : nat * string) :
  traversal_at (drop m.1 logs) m.2 →
  4 ≤ String.length m.2 ∧ m.1 + String.length m.2 ≤ String.length logs.
Proof.
  intros (x & r & Hg & Hs & _).
  assert (Hl : String.length (drop m.1 logs) = String.length (m.2 +:+ r))
    by by rewrite Hs.
  rewrite length_drop, string_length_app in Hl.
  rewrite Hg in *. rewrite !string_length_app in *. simpl in *. lia.
Qed.

Lemma ends_before_length (N : nat) (ms : list (nat * string)) :
  StronglySorted ends_before ms →
  Forall (λ m, 4 ≤ String.length m.2 ∧ m.1 + String.length m.2 ≤ N) ms →
  ∀ lo, Forall (λ m, lo ≤ m.1) ms → ms = [] ∨ lo + 4 * length ms ≤ N.
Proof.
  induction 1 as [|m ms _ IH Hm]; intros Hall lo Hlo; [by left|]. right.
  apply Forall_cons in Hall as [[H4 HN] Hall].
  apply Forall_cons in Hlo as [Hlo _].
  destruct (IH Hall (m.1 + String.length m.2)) as [->|Hle].
  - eapply Forall_impl; [exact Hm|]. by intros m'.
  - simpl. lia.
  - simpl. lia.
Qed.

(** X5. A match takes four characters or more and matches do not overlap:
    [analyze_logs] returns at most one finding for every four characters
    of the log. *)
Theorem analyze_logs_length (logs : string) :
  4 * length (analyze_logs logs) ≤ String.length logs.
Proof.
  rewrite analyze_logs_fmap, length_fmap. unfold finditer.
  destruct (finditer_from_traversal logs logs None 0 0 (drop_0 logs))
    as (Hall & Hsort & _).
  destruct (ends_before_length (String.length logs) _ Hsort) with (lo := 0)
    as [->|H].
  - eapply Forall_impl; [exact Hall|]. intros m [_ Hm].
    by apply traversal_at_bounds.
  - eapply Forall_impl; [exact Hall|]. intros m [? _]. lia.
  - simpl. lia.
  - lia.
Qed.

Lemma gap_exists (x r : string) :
  contains x nl = false → is_Some (gap (x +:+ ".." +:+ r)).
Proof.
  induction x as [|c x IH]; intros Hx; [by eexists|].
  change (String c x +:+ ".." +:+ r) with (String c (x +:+ ".." +:+ r)).
  cbn [gap]. destruct (startswith _ ".."); [by eexists|].
  cbn [contains startswith nl] in Hx.
  apply orb_false_iff in Hx as [Hc Hx]. rewrite andb_true_r in Hc.
  assert (is_newline c = false) as ->.
  { apply bool_decide_eq_false. apply bool_decide_eq_false in Hc. congruence. }
  destruct (IH Hx) as [k ->]. by eexists.
Qed.

(** X6. [analyze_logs] reports something exactly when somewhere in the log
    two [..] stand with no newline between them. *)
Theorem analyze_logs_nonempty (logs : string) :
  analyze_logs logs ≠ []
  ↔ ∃ a x b, logs = a +:+ ".." +:+ x +:+ ".." +:+ b ∧ contains x nl = false.
Proof.
  rewrite analyze_logs_fmap.
  destruct (finditer_from_traversal logs logs None 0 0 (drop_0 logs))
    as (Hall & _ & Hfound).
  fold (finditer traversal logs) in Hall, Hfound. split.
  - destruct (finditer traversal logs) as [|m ms]; [done|]. intros _.
    apply Forall_cons in Hall as [[_ (x & r & Hg & Hs & Hx & _)] _].
    exists (take m.1 logs), x, r. split; [|done].
    rewrite <- (take_drop m.1 logs) at 1. rewrite Hs, Hg.
    by rewrite !string_app_assoc.
  - intros (a & x & b & -> & Hx).
    destruct (gap_exists x b Hx) as [k Hk].
    assert (Hat : ∃ g, traversal_at
                    (drop (0 + String.length a) (a +:+ ".." +:+ x +:+ ".." +:+ b)) g).
    { exists (take (k + 4) (".." +:+ x +:+ ".." +:+ b)).
      apply (traversal_at_iff None). exists (k + 4). split; [|by rewrite drop_app_length'].
      rewrite drop_app_length'. rewrite match_at_traversal.
      change (drop 2 (".." +:+ x +:+ ".." +:+ b)) with (x +:+ ".." +:+ b).
      cbn [startswith bool_decide decide_rel andb]. by rewrite Hk. }
    destruct Hat as [g Hg].
    destruct (Hfound _ g (Nat.le_0_l _) Hg) as (m & Hm & _).
    intros Heq. apply fmap_nil_inv in Heq. rewrite Heq in Hm.
    by apply elem_of_nil in Hm.
Qed.

Lemma startswith_dotdot_nl (y b : string) :
  startswith (y +:+ nl +:+ b) ".." = startswith y "..".
Proof.
  destruct y as [|c1 [|c2 y]]; [reflexivity| |reflexivity].
  change (String c1 EmptyString +:+ nl +:+ b) with (String c1 (String newline b)).
  cbn [startswith]. by destruct (bool_decide ("."%char = c1)).
Qed.

Lemma gap_nl (y b : string) : gap (y +:+ nl +:+ b) = gap y.
Proof.
  induction y as [|c y IH]; [done|].
  change (String c y +:+ nl +:+ b) with (String c (y +:+ nl +:+ b)).
  cbn [gap]. rewrite IH.
  change (String c (y +:+ nl +:+ b)) with (String c y +:+ nl +:+ b).
  by rewrite startswith_dotdot_nl.
Qed.

Lemma take_app_le_length (n : nat) (x t : string) :
  n ≤ String.length x → take n (x +:+ t) = take n x.
Proof.
  revert x. induction n as [|n IH]; intros x Hn.
  - by destruct x, t.
  - destruct x as [|c x]; simpl in Hn; [lia|].
    rewrite string_app_cons. simpl. rewrite IH; [done|lia].
Qed.

(** A newline ends what the pattern can match. *)
Lemma match_at_traversal_nl (q q' : option ascii) (x b : string) :
  match_at traversal (q, x +:+ nl +:+ b) = match_at traversal (q', x).
Proof.
  rewrite !match_at_traversal, startswith_dotdot_nl.
  destruct (startswith x "..") eqn:Hx; [|done].
  apply startswith_dotdot in Hx as (t & -> & _).
  change (drop 2 ((".." +:+ t) +:+ nl +:+ b)) with (t +:+ nl +:+ b).
  change (drop 2 (".." +:+ t)) with t. by rewrite gap_nl.
Qed.

Lemma finditer_from_traversal_prev (q q' : option ascii) (s : string)
    (start skip : nat) :
  finditer_from traversal q s start skip
  = finditer_from traversal q' s start skip.
Proof.
  revert q q' start skip. induction s as [|c s IH]; intros q q' start skip.
  - destruct skip; [|done]. cbn [finditer_from].
    by rewrite !match_at_traversal.
  - destruct skip as [|k]; cbn [finditer_from]; [|done].
    by rewrite (match_at_traversal q), (match_at_traversal q').
Qed.

Lemma finditer_from_shift (r : regex) (q : option ascii) (s : string)
    (k start skip : nat) :
  finditer_from r q s (k + start) skip
  = shift_match k <$> finditer_from r q s start skip.
Proof.
  revert q start skip. induction s as [|c s IH]; intros q start skip.
  - destruct skip; [|done]. cbn [finditer_from].
    by destruct (match_at r (q, EmptyString)).
  - destruct skip as [|j]; cbn [finditer_from].
    + destruct (match_at r (q, String c s)) as [n|].
      * rewrite fmap_cons. unfold shift_match at 1. cbn [fst snd]. f_equal.
        rewrite <- IH. f_equal. lia.
      * rewrite <- IH. f_equal. lia.
    + rewrite <- IH. f_equal. lia.
Qed.

Lemma finditer_from_traversal_app (b : string) :
  ∀ x q start skip,
    skip ≤ String.length x →
    finditer_from traversal q (x +:+ nl +:+ b) start skip
    = finditer_from traversal q x start skip
      ++ finditer_from traversal None b (start + String.length x + 1) 0.
Proof.
  induction x as [|c x IH]; intros q start skip Hskip.
  - simpl in Hskip. assert (skip = 0) as -> by lia.
    change (EmptyString +:+ nl +:+ b) with (String newline b).
    cbn [finditer_from]. rewrite !match_at_traversal. cbn [startswith app].
    rewrite (finditer_from_traversal_prev _ None). simpl. f_equal. lia.
  - change (String c x +:+ nl +:+ b) with (String c (x +:+ nl +:+ b)).
    simpl in Hskip. destruct skip as [|k]; cbn [finditer_from].
    + change (String c (x +:+ nl +:+ b)) with (String c x +:+ nl +:+ b).
      rewrite (match_at_traversal_nl q q).
      destruct (match_at traversal (q, String c x)) as [n|] eqn:Hm.
      * apply match_at_traversal_bounds in Hm. simpl in Hm.
        rewrite take_app_le_length by (simpl; lia).
        rewrite IH by lia. rewrite <- app_comm_cons. do 3 f_equal. simpl. lia.
      * rewrite IH by lia. do 2 f_equal. simpl. lia.
    + rewrite IH by lia. do 2 f_equal. simpl. lia.
Qed.

Lemma finditer_traversal_app (a b : string) :
  finditer traversal (a +:+ nl +:+ b)
  = finditer traversal a
    ++ (shift_match (String.length a + 1) <$> finditer traversal b).
Proof.
  unfold finditer. rewrite finditer_from_traversal_app by lia.
  f_equal. rewrite <- finditer_from_shift. f_equal. lia.
Qed.

Lemma count_newline_app_l (a t : string) (n : nat) :
  n ≤ String.length a → count_newline (a +:+ t) n = count_newline a n.
Proof.
  revert a. induction n as [|n IH]; intros a Hn; [by destruct a, t|].
  destruct a as [|c a]; simpl in Hn; [lia|].
  rewrite string_app_cons. cbn [count_newline]. rewrite IH; [done|lia].
Qed.

Lemma count_newline_app_r (a t : string) (k : nat) :
  count_newline (a +:+ t) (String.length a + k)
  = count_newline a (String.length a) + count_newline t k.
Proof.
  induction a as [|c a IH].
  - simpl. by destruct k, t.
  - rewrite string_app_cons. cbn [count_newline String.length Nat.add].
    rewrite IH. lia.
Qed.

Lemma take_length (s : string) : take (String.length s) s = s.
Proof. induction s as [|c s IH]; [done|]. simpl. by rewrite IH. Qed.

Lemma length_split_newline (s : string) :
  length (split_newline s) = count_newline s (String.length s) + 1.
Proof. by rewrite count_newline_lines, take_length. Qed.

(** X7. The findings of two logs joined by a newline are those of the first
    log followed by those of the second, the same but for the line numbers,
    which are moved by the number of lines of the first: scanning the whole
    text finds what scanning line by line would. *)
Theorem analyze_logs_app (a b : string) :
  ∃ moved,
    analyze_logs (a +:+ nl +:+ b) = analyze_logs a ++ moved
    ∧ Forall2 (λ f g,
        type f = type g ∧ risk_level f = risk_level g
        ∧ description f = description g ∧ fix_ f = fix_ g
        ∧ ∃ n text,
            location g = Some ("Line " +:+ str n +:+ ": " +:+ text)
            ∧ location f
              = Some ("Line " +:+ str (length (split_newline a) + n) +:+ ": " +:+ text))
        moved (analyze_logs b)
    ∧ length (analyze_logs (a +:+ nl +:+ b))
      = length (analyze_logs a) + length (analyze_logs b).
Proof.
  exists ((λ m, traversal_finding (a +:+ nl +:+ b) (String.length a + 1 + m.1) m.2)
            <$> finditer traversal b).
  assert (Hfirst : analyze_logs (a +:+ nl +:+ b)
            = analyze_logs a
              ++ ((λ m, traversal_finding (a +:+ nl +:+ b)
                          (String.length a + 1 + m.1) m.2)
                    <$> finditer traversal b)).
  { rewrite !analyze_logs_fmap, finditer_traversal_app, fmap_app.
    f_equal.
    - destruct (finditer_from_traversal a a None 0 0 (drop_0 a)) as (Hall & _ & _).
      fold (finditer traversal a) in Hall.
      induction Hall as [|m ms [_ Hm] _ IH]; [done|].
      rewrite !fmap_cons, IH. f_equal.
      apply traversal_at_bounds in Hm as [_ Hm].
      unfold traversal_finding. rewrite count_newline_app_l; [done|lia].
    - rewrite <- list_fmap_compose. done. }
  split_and!.
  - exact Hfirst.
  - rewrite analyze_logs_fmap. apply Forall2_fmap, Forall_Forall2_diag.
    apply Forall_forall. intros m _. split_and!; try done.
    exists (count_newline b m.1 + 1), m.2. split; [done|].
    unfold traversal_finding. cbn [location]. do 4 f_equal.
    rewrite <- Nat.add_assoc, count_newline_app_r.
    change (nl +:+ b) with (String newline b). cbn [count_newline Nat.add].
    rewrite length_split_newline. simpl. lia.
  - rewrite Hfirst, length_app, length_fmap.
    by rewrite (analyze_logs_fmap b), length_fmap.
Qed.

(** ** De-duplication and the analyzers *)

Lemma unique_loop_fresh (l : list finding) :
  ∀ u seen,
    NoDup (type <$> l) → (∀ v, v ∈ l → type v ∉ seen) →
    (foldl unique_step (u, seen) l).1 = u ++ l.
Proof.
  induction l as [|x l IH]; intros u seen Hnd Hfresh; simpl.
  - by rewrite app_nil_r.
  - rewrite fmap_cons in Hnd. apply NoDup_cons in Hnd as [Hx Hnd].
    rewrite decide_False by (apply Hfresh; left).
    rewrite IH; [by rewrite <- app_assoc|done|].
    intros v Hv. rewrite elem_of_union, elem_of_singleton.
    intros [Hin|Heq].
    + by apply (Hfresh v); [right|].
    + apply Hx. rewrite <- Heq. by apply list_elem_of_fmap_2.
Qed.

Lemma unique_loop_seen (l : list finding) :
  ∀ u seen, (∀ v, v ∈ l → type v ∈ seen) →
    foldl unique_step (u, seen) l = (u, seen).
Proof.
  induction l as [|x l IH]; intros u seen Hseen; [done|]. simpl.
  rewrite decide_True by (apply Hseen; left).
  apply IH. intros v Hv. apply Hseen. by right.
Qed.

Lemma unique_vulnerabilities_spec (l : list finding) :
  unique_vulnerabilities l `sublist_of` l
  ∧ NoDup (type <$> unique_vulnerabilities l)
  ∧ (∀ v, v ∈ unique_vulnerabilities l ↔ first_of_its_type l v).
Proof.
  unfold unique_vulnerabilities.
  destruct (foldl unique_step ([], ∅) l) as [u seen] eqn:Hloop.
  by destruct (unique_loop_spec _ _ _ Hloop) as (_ & ? & ? & ?).
Qed.

(** X8. De-duplicating twice is de-duplicating once, and the result is no
    longer than the input. *)
Theorem unique_vulnerabilities_idemp (vulnerabilities : list finding) :
  unique_vulnerabilities (unique_vulnerabilities vulnerabilities)
  = unique_vulnerabilities vulnerabilities
  ∧ length (unique_vulnerabilities vulnerabilities) ≤ length vulnerabilities.
Proof.
  destruct (unique_vulnerabilities_spec vulnerabilities) as (Hsub & Hnd & _).
  split; [|by apply sublist_length].
  unfold unique_vulnerabilities at 1.
  rewrite unique_loop_fresh; [done|done|]. intros v _. apply not_elem_of_empty.
Qed.

Lemma unique_vulnerabilities_same_type (l : list finding) (t : string) :
  (∀ v, v ∈ l → type v = t) → unique_vulnerabilities l = firstn 1 l.
Proof.
  intros Ht. destruct l as [|x l]; [done|].
  unfold unique_vulnerabilities. simpl.
  rewrite decide_False by apply not_elem_of_empty.
  rewrite unique_loop_seen; [by destruct l|].
  intros v Hv. rewrite elem_of_union, elem_of_singleton. right.
  rewrite (Ht v) by by right. symmetry. apply Ht. by left.
Qed.

(** X9. All findings of [analyze_logs] have one type, so de-duplication
    keeps the first of them only. *)
Theorem unique_vulnerabilities_analyze_logs (logs : string) :
  unique_vulnerabilities (analyze_logs logs) = firstn 1 (analyze_logs logs).
Proof.
  apply (unique_vulnerabilities_same_type _ "Directory Traversal").
  intros v Hv. rewrite analyze_logs_fmap in Hv.
  by apply list_elem_of_fmap in Hv as (m & -> & _).
Qed.

Lemma finding_of_inj (c c' : category) (n n' : nat) :
  finding_of c n = finding_of c' n' → c = c' ∧ n = n'.
Proof.
  intros Heq. apply (finding_of_at c' c n n'). rewrite Heq.
  split; [apply type_finding_of|apply location_finding_of].
Qed.

Lemma listed_before_finding_of (c c' : category) (n n' : nat) :
  listed_before (finding_of c n) (finding_of c' n') →
  rank c < rank c' ∨ c = c' ∧ n < n'.
Proof.
  intros (c1 & n1 & c2 & n2 & Ht1 & Hl1 & Ht2 & Hl2 & Hord).
  rewrite type_finding_of in Ht1, Ht2. rewrite location_finding_of in Hl1, Hl2.
  apply label_inj in Ht1 as <-. apply label_inj in Ht2 as <-.
  injection Hl1 as Hl1. injection Hl2 as Hl2.
  apply str_inj in Hl1 as <-. apply str_inj in Hl2 as <-.
  destruct Hord as [?|[? ?]]; [by left|right]. split; [done|lia].
Qed.

(** X10. After de-duplication the findings of [analyze_code] are, for each
    category that reports a line, the finding at the first line it
    reports; there are at most four of them. *)
Theorem unique_vulnerabilities_analyze_code (code : string) :
  (∀ v, v ∈ unique_vulnerabilities (analyze_code code)
        ↔ ∃ c n, v = finding_of c n
                 ∧ n ∈ hits c (split_newline code)
                 ∧ ∀ m, m ∈ hits c (split_newline code) → n ≤ m)
  ∧ length (unique_vulnerabilities (analyze_code code)) ≤ 4.
Proof.
  destruct (unique_vulnerabilities_spec (analyze_code code)) as (Hsub & Hnd & Hkept).
  pose proof (analyze_code_sorted code) as Hsort.
  split.
  - intros v. rewrite Hkept. split.
    + intros (i & Hi & Hfirst).
      assert (Hv : v ∈ analyze_code code) by by eapply list_elem_of_lookup_2.
      apply elem_of_analyze_code in Hv as (c & n & -> & Hn).
      exists c, n. split_and!; [done..|]. intros m Hm.
      destruct (decide (n ≤ m)) as [|Hlt]; [done|]. exfalso.
      assert (Hw : finding_of c m ∈ analyze_code code)
        by (apply elem_of_analyze_code; eauto).
      apply list_elem_of_lookup in Hw as (j & Hj).
      destruct (decide (j < i)) as [Hji|Hji].
      * apply (Hfirst j _ Hji Hj). by rewrite !type_finding_of.
      * destruct (decide (j = i)) as [->|Hne].
        -- rewrite Hi in Hj. injection Hj as Hj.
           apply finding_of_inj in Hj as [_ ?]. lia.
        -- assert (Hij : i < j) by lia.
           pose proof (StronglySorted_lookup _ _ _ _ _ _ Hsort Hij Hi Hj) as Hb.
           apply listed_before_finding_of in Hb. lia.
    + intros (c & n & -> & Hn & Hmin).
      assert (Hv : finding_of c n ∈ analyze_code code)
        by (apply elem_of_analyze_code; eauto).
      apply list_elem_of_lookup in Hv as (i & Hi). exists i. split; [done|].
      intros j w Hji Hj Hty.
      assert (Hw : w ∈ analyze_code code) by by eapply list_elem_of_lookup_2.
      apply elem_of_analyze_code in Hw as (c' & m & -> & Hm).
      rewrite !type_finding_of in Hty. apply label_inj in Hty as ->.
      pose proof (StronglySorted_lookup _ _ _ _ _ _ Hsort Hji Hj Hi) as Hb.
      apply listed_before_finding_of in Hb. specialize (Hmin m Hm). lia.
  - rewrite <- (length_fmap type).
    change 4 with (length (label <$> categories)).
    apply submseteq_length, NoDup_submseteq; [done|].
    intros t Ht. apply list_elem_of_fmap in Ht as (v & -> & Hv).
    apply (elem_of_sublist _ _ _ Hv) in Hsub.
    apply elem_of_analyze_code in Hsub as (c & n & -> & _).
    rewrite type_finding_of. apply list_elem_of_fmap_2.
    unfold categories. rewrite !elem_of_cons. destruct c; auto.
Qed.

(** X11. On a successful request the findings for missing headers all have
    one type, so after de-duplication only the first header missing, in
    the order of the table, is left, followed by the Insecure Protocol
    finding if there is one. *)
Theorem unique_vulnerabilities_analyze_url (validators_url : string → bool)
    (requests_get : string → outcome) (url : string)
    (headers : gmap string (string * string)) :
  validators_url url = true →
  requests_get url = Response headers →
  ∃ vulnerabilities,
    analyze_url validators_url requests_get url = ([url], Returns vulnerabilities)
    ∧ unique_vulnerabilities vulnerabilities
      = firstn 1 (missing_header_findings headers)
        ++ (if startswith url "http://" then [insecure_protocol_finding] else []).
Proof.
  intros Hvalid Hget. eexists. split.
  { unfold analyze_url. rewrite Hvalid, Hget. reflexivity. }
  unfold missing_header_findings, security_headers. cbn [foldl].
  rewrite !filter_cons, filter_nil. cbn [fst snd].
  destruct (startswith url "http://");
    destruct (header_in "Strict-Transport-Security" headers),
      (header_in "X-Content-Type-Options" headers),
      (header_in "X-Frame-Options" headers),
      (header_in "Content-Security-Policy" headers);
    vm_compute; reflexivity.
Qed.

Lemma unique_vulnerabilities_analyze_url_witness :
  ∃ vulnerabilities,
    analyze_url prefix_validator bare_network "http://example.com"
    = (["http://example.com"], Returns vulnerabilities)
    ∧ unique_vulnerabilities vulnerabilities
      = [missing_header_finding "Strict-Transport-Security" "Missing HSTS header";
         insecure_protocol_finding].
Proof.
  apply (unique_vulnerabilities_analyze_url prefix_validator bare_network
           "http://example.com" ∅ eq_refl eq_refl).
Defined.

(** ** Risk levels, the summary and the reports *)

Lemma known_risk_iff (v : finding) :
  known_risk v
  ↔ risk_level v = "Critical" ∨ risk_level v = "High"
    ∨ risk_level v = "Medium" ∨ risk_level v = "Low".
Proof.
  unfold known_risk, risk_colors. split.
  - intros [color Hc].
    repeat (apply lookup_insert_Some in Hc as [[<- _]|[_ Hc]]; [by auto|]).
    by rewrite lookup_empty in Hc.
  - intros [H|[H|[H|H]]]; rewrite H; vm_compute; by eexists.
Qed.

Ltac all_known :=
  repeat (apply Forall_cons; split; [apply known_risk_iff; simpl; auto 6|]);
  by apply Forall_nil.

Lemma known_risk_analyze_code (code : string) :
  Forall known_risk (analyze_code code).
Proof.
  apply Forall_forall. intros v Hv.
  apply elem_of_analyze_code in Hv as (c & n & -> & _).
  apply known_risk_iff. destruct c; simpl; auto.
Qed.

Lemma known_risk_analyze_logs (logs : string) :
  Forall known_risk (analyze_logs logs).
Proof.
  apply Forall_forall. intros v Hv. rewrite analyze_logs_fmap in Hv.
  apply list_elem_of_fmap in Hv as (m & -> & _).
  apply known_risk_iff. simpl. auto.
Qed.

Lemma known_risk_analyze_url (validators_url : string → bool)
    (requests_get : string → outcome) (url : string)
    (vulnerabilities : list finding) :
  (analyze_url validators_url requests_get url).2 = Returns vulnerabilities →
  Forall known_risk vulnerabilities.
Proof.
  unfold analyze_url.
  destruct (validators_url url); cbn [negb].
  - destruct (requests_get url) as [headers| |e|e]; cbn [snd].
    + unfold security_headers. cbn [foldl].
      destruct (startswith url "http://");
        destruct (header_in "Strict-Transport-Security" headers),
          (header_in "X-Content-Type-Options" headers),
          (header_in "X-Frame-Options" headers),
          (header_in "Content-Security-Policy" headers);
        cbn [negb app]; intros [= <-]; all_known.
    + intros [= <-]. all_known.
    + intros [= <-]. all_known.
    + discriminate.
  - intros [= <-]. all_known.
Qed.

(** X12. Every finding of the three analyzers has a risk level that is a
    key of [risk_colors]: Critical, High, Medium or Low. *)
Theorem analyzers_known_risk (validators_url : string → bool)
    (requests_get : string → outcome) (text : string) :
  Forall known_risk (analyze_code text)
  ∧ Forall known_risk (analyze_logs text)
  ∧ ∀ vulnerabilities,
      (analyze_url validators_url requests_get text).2 = Returns vulnerabilities →
      Forall known_risk vulnerabilities.
Proof.
  split_and!.
  - apply known_risk_analyze_code.
  - apply known_risk_analyze_logs.
  - apply known_risk_analyze_url.
Qed.

Lemma risk_count_length (level : string) (l : list finding) :
  risk_count level l = length (filter (λ v, risk_level v = level) l).
Proof.
  unfold risk_count. generalize (filter (λ v, risk_level v = level) l).
  intros vs. induction vs as [|v vs IH]; [done|]. simpl in *. by f_equal.
Qed.

Lemma risk_counts_sum (l : list finding) :
  Forall known_risk l →
  risk_count "Critical" l + risk_count "High" l
  + risk_count "Medium" l + risk_count "Low" l = length l.
Proof.
  rewrite !risk_count_length.
  induction 1 as [|v l Hv _ IH]; [done|].
  rewrite !filter_cons. simpl. rewrite <- IH.
  apply known_risk_iff in Hv as [Hv|[Hv|[Hv|Hv]]]; rewrite Hv;
    repeat (rewrite decide_True by done || rewrite decide_False by done);
    simpl; lia.
Qed.

(** X13. [print_results] shows the success message exactly on the empty
    list.  Otherwise the total it shows is at least one and at most the
    number of findings given, and when every finding has one of the four
    risk levels the four counts add up to the total. *)
Theorem print_results_summary (vulnerabilities : list finding) :
  (print_results vulnerabilities = None ↔ vulnerabilities = [])
  ∧ ∀ total critical high medium low,
      print_results vulnerabilities = Some (total, critical, high, medium, low) →
      1 ≤ total ≤ length vulnerabilities
      ∧ (Forall known_risk vulnerabilities →
         critical + high + medium + low = total).
Proof.
  split.
  - by destruct vulnerabilities.
  - intros total critical high medium low Hp.
    destruct vulnerabilities as [|x l] eqn:Hl; [discriminate|].
    rewrite <- Hl in *. unfold print_results in Hp. rewrite Hl in Hp at 1.
    injection Hp as <- <- <- <- <-.
    destruct (unique_vulnerabilities_spec vulnerabilities) as (Hsub & _ & Hkept).
    split_and!.
    + assert (Hx : x ∈ unique_vulnerabilities vulnerabilities).
      { apply Hkept. exists 0. rewrite Hl. split; [done|]. intros j w Hj. lia. }
      destruct (unique_vulnerabilities vulnerabilities); [|simpl; lia].
      by apply elem_of_nil in Hx.
    + by apply sublist_length.
    + intros Hknown. apply risk_counts_sum.
      apply Forall_forall. intros v Hv.
      eapply Forall_forall in Hknown; [done|]. by eapply elem_of_sublist.
Qed.

Lemma print_results_summary_witness :
  1 ≤ 2 ≤ length (analyze_code password_script_line)
  ∧ (Forall known_risk (analyze_code password_script_line) → 1 + 1 + 0 + 0 = 2).
Proof.
  destruct (print_results_summary (analyze_code password_script_line))
    as [_ H].
  apply (H 2 1 1 0 0). vm_compute. reflexivity.
Defined.

(** *** The HTML report *)

Lemma html_vulnerabilities_value (vulnerabilities : list finding) :
  ∀ html, Forall known_risk vulnerabilities ↔
          ∃ out, html_vulnerabilities vulnerabilities html = Value out.
Proof.
  induction vulnerabilities as [|v vs IH]; intros html; cbn [html_vulnerabilities].
  - split; [by eexists|constructor].
  - rewrite Forall_cons. unfold known_risk at 1.
    destruct (risk_colors !! risk_level v) as [color|] eqn:Hc.
    + split.
      * intros [_ H]. by apply IH.
      * intros H. split; [by eexists|]. eapply IH. exact H.
    + split; [by intros [[? ?] _]|by intros [? ?]].
Qed.

Lemma html_vulnerabilities_key_error (vulnerabilities : list finding) :
  ∀ html key,
    html_vulnerabilities vulnerabilities html = KeyError key →
    ∃ pre v post, vulnerabilities = pre ++ v :: post
                  ∧ Forall known_risk pre
                  ∧ risk_level v = key ∧ ¬ known_risk v.
Proof.
  induction vulnerabilities as [|v vs IH]; intros html key;
    cbn [html_vulnerabilities]; [discriminate|].
  destruct (risk_colors !! risk_level v) as [color|] eqn:Hc.
  - intros H. apply IH in H as (pre & w & post & -> & Hpre & Hkey & Hw).
    exists (v :: pre), w, post. split_and!; try done.
    constructor; [|done]. unfold known_risk. by rewrite Hc.
  - intros [= <-]. exists [], v, vs. split_and!; try done.
    unfold known_risk. rewrite Hc. by intros [? ?].
Qed.

(** X14. [generate_html_report] returns a report exactly when every finding
    has a risk level that is a key of [risk_colors]; otherwise it raises
    [KeyError] with the first risk level that is not. *)
Theorem generate_html_report_key_error (current_time : string)
    (vulnerabilities : list finding) :
  (Forall known_risk vulnerabilities
   ↔ ∃ html, generate_html_report current_time vulnerabilities = Value html)
  ∧ ∀ key,
      generate_html_report current_time vulnerabilities = KeyError key →
      ∃ pre v post, vulnerabilities = pre ++ v :: post
                    ∧ Forall known_risk pre
                    ∧ risk_level v = key ∧ ¬ known_risk v.
Proof.
  unfold generate_html_report. split.
  - rewrite (html_vulnerabilities_value _ (html_head current_time)).
    destruct (html_vulnerabilities _ _) as [out|key]; split.
    + by eexists.
    + by eexists.
    + by intros [? ?].
    + by intros [? ?].
  - intros key.
    destruct (html_vulnerabilities _ _) as [out|key'] eqn:H; [discriminate|].
    intros [= <-]. by eapply html_vulnerabilities_key_error.
Qed.

(** X15. The report [print_results] offers for download never fails on what
    the analyzers return: after de-duplication the findings of
    [analyze_code], of [analyze_logs] and of [analyze_url] all have a colour. *)
Theorem generate_html_report_analyzers (validators_url : string → bool)
    (requests_get : string → outcome) (current_time text : string) :
  (∃ html, generate_html_report current_time
             (unique_vulnerabilities (analyze_code text)) = Value html)
  ∧ (∃ html, generate_html_report current_time
               (unique_vulnerabilities (analyze_logs text)) = Value html)
  ∧ ∀ vulnerabilities,
      (analyze_url validators_url requests_get text).2 = Returns vulnerabilities →
      ∃ html, generate_html_report current_time
                (unique_vulnerabilities vulnerabilities) = Value html.
Proof.
  assert (Hu : ∀ l, Forall known_risk l →
            ∃ html, generate_html_report current_time (unique_vulnerabilities l)
                    = Value html).
  { intros l Hl. unfold generate_html_report.
    destruct (proj1 (html_vulnerabilities_value (unique_vulnerabilities l)
                       (html_head current_time))) as [out ->]; [|by eexists].
    apply Forall_forall. intros v Hv. eapply Forall_forall in Hl; [done|].
    destruct (unique_vulnerabilities_spec l) as (Hsub & _).
    by eapply elem_of_sublist. }
  split_and!.
  - apply Hu, known_risk_analyze_code.
  - apply Hu, known_risk_analyze_logs.
  - intros vs Hvs. by eapply Hu, known_risk_analyze_url.
Qed.

Lemma contains_here (x r : string) : contains (x +:+ r) x = true.
Proof. apply contains_spec. by exists EmptyString, r. Qed.

Lemma contains_app_l (s t sub : string) :
  contains s sub = true → contains (s +:+ t) sub = true.
Proof.
  rewrite !contains_spec. intros (a & b & ->). exists a, (b +:+ t).
  by rewrite !string_app_assoc.
Qed.

Lemma contains_app_r (s t sub : string) :
  contains t sub = true → contains (s +:+ t) sub = true.
Proof.
  rewrite !contains_spec. intros (a & b & ->). exists (s +:+ a), b.
  by rewrite !string_app_assoc.
Qed.

Ltac find_sub := repeat first [apply contains_here | apply contains_app_r].

Lemma contains_html_vulnerability (rl color risk ty desc : string) :
  contains (html_vulnerability rl color risk ty desc) ty = true
  ∧ contains (html_vulnerability rl color risk ty desc) desc = true.
Proof. unfold html_vulnerability. split; find_sub. Qed.

Lemma contains_html_fix (f : string) : contains (html_fix f) f = true.
Proof. unfold html_fix. find_sub. Qed.

Lemma contains_html_location (loc : string) :
  contains (html_location loc) loc = true.
Proof. unfold html_location. find_sub. Qed.

Lemma html_vulnerabilities_contains (vulnerabilities : list finding) :
  ∀ html out,
    html_vulnerabilities vulnerabilities html = Value out →
    (∀ sub, contains html sub = true → contains out sub = true)
    ∧ ∀ v, v ∈ vulnerabilities →
        contains out (type v) = true
        ∧ contains out (description v) = true
        ∧ (∀ loc, location v = Some loc → contains out loc = true)
        ∧ (∀ f, fix_ v = Some f → contains out f = true).
Proof.
  induction vulnerabilities as [|x vs IH]; intros html out;
    cbn [html_vulnerabilities].
  - intros [= <-]. split; [done|]. intros v Hv. by apply elem_of_nil in Hv.
  - destruct (risk_colors !! risk_level x) as [color|]; [|discriminate].
    intros Hout. apply IH in Hout as [Hmono Hrest]. split.
    + intros sub Hsub. apply Hmono.
      destruct (fix_ x), (location x); by repeat apply contains_app_l.
    + intros v Hv. apply elem_of_cons in Hv as [->|Hv]; [|by apply Hrest].
      destruct (contains_html_vulnerability (lower (risk_level x)) color
                  (risk_level x) (type x) (description x)) as [Hty Hdesc].
      split_and!.
      * apply Hmono. destruct (fix_ x), (location x);
          [do 3 apply contains_app_l|do 2 apply contains_app_l
          |do 2 apply contains_app_l|apply contains_app_l];
          by apply contains_app_r.
      * apply Hmono. destruct (fix_ x), (location x);
          [do 3 apply contains_app_l|do 2 apply contains_app_l
          |do 2 apply contains_app_l|apply contains_app_l];
          by apply contains_app_r.
      * intros loc Hloc. apply Hmono. rewrite Hloc. destruct (fix_ x);
          apply contains_app_l, contains_app_r, contains_html_location.
      * intros f Hf. apply Hmono. rewrite Hf. destruct (location x).
        -- apply contains_app_l, contains_app_l, contains_app_r, contains_html_fix.
        -- apply contains_app_l, contains_app_r, contains_html_fix.
Qed.

(** X16. A report [generate_html_report] returns holds the date it was
    given and, for every finding, its type, its description, its location
    and its fix, each as it is, character for character. *)
Theorem generate_html_report_contains (current_time : string)
    (vulnerabilities : list finding) (html : string) :
  generate_html_report current_time vulnerabilities = Value html →
  contains html current_time = true
  ∧ ∀ v, v ∈ vulnerabilities →
      contains html (type v) = true
      ∧ contains html (description v) = true
      ∧ (∀ loc, location v = Some loc → contains html loc = true)
      ∧ (∀ f, fix_ v = Some f → contains html f = true).
Proof.
  unfold generate_html_report.
  destruct (html_vulnerabilities _ _) as [out|key] eqn:Hout; [|discriminate].
  intros [= <-]. apply html_vulnerabilities_contains in Hout as [Hmono Hall].
  split.
  - apply contains_app_l, Hmono. unfold html_head. find_sub.
  - intros v Hv. destruct (Hall v Hv) as (Hty & Hdesc & Hloc & Hfix).
    split_and!.
    + by apply contains_app_l.
    + by apply contains_app_l.
    + intros loc Hl. by apply contains_app_l, Hloc.
    + intros f Hf. by apply contains_app_l, Hfix.
Qed.

Lemma generate_html_report_contains_witness :
  ∃ html,
    generate_html_report "2024-05-01 10:00:00" (analyze_logs traversal_log)
    = Value html
    ∧ contains html "Line 3: ..\/.." = true.
Proof.
  destruct (generate_html_report "2024-05-01 10:00:00" (analyze_logs traversal_log))
    as [html|key] eqn:E; [|vm_compute in E; discriminate E].
  exists html. split; [reflexivity|].
  destruct (generate_html_report_contains _ _ _ E) as [_ H].
  destruct (H (traversal_finding traversal_log 4 "..\/.."))
    as (_ & _ & Hloc & _); [vm_compute; left|].
  apply Hloc. vm_compute. reflexivity.
Defined.

(** *** The bug report *)

Lemma bug_report_fold (l : list finding) :
  ∀ report,
    foldl (λ report vuln,
      let report := report +:+ ("## " +:+ type vuln +:+ nl) in
      let report := report +:+ ("**Risk Level:** " +:+ risk_level vuln +:+ nl) in
      let report := report +:+ ("**Description:** " +:+ description vuln +:+ nl) in
      let report :=
        report +:+ ("**Recommended Fix:** " +:+ get_or_empty (fix_ vuln) +:+ nl) in
      let report :=
        report +:+ ("**Location:** " +:+ get_or_empty (location vuln) +:+ nl +:+ nl) in
      report) report l
    = report +:+ foldr (λ v r, bug_section v +:+ r) EmptyString l.
Proof.
  induction l as [|v l IH]; intros report; cbn [foldl foldr].
  - clear. induction report as [|c r IH]; [done|].
    rewrite string_app_cons. by f_equal.
  - rewrite IH. unfold bug_section. by rewrite !string_app_assoc.
Qed.

(** X17. [generate_bug_report] starts with the title and gives every
    finding its section of five lines, whole and in order: the report of a
    list followed by another is the report of the first followed by the
    sections of the second. *)
Theorem generate_bug_report_sections (l1 l2 : list finding) :
  generate_bug_report (l1 ++ l2)
  = generate_bug_report l1 +:+ drop 14 (generate_bug_report l2)
  ∧ startswith (generate_bug_report l1) ("# Bug Report" +:+ nl +:+ nl) = true
  ∧ ∀ v, v ∈ l1 → contains (generate_bug_report l1) (bug_section v) = true.
Proof.
  unfold generate_bug_report. rewrite !bug_report_fold. split_and!.
  - assert (Hdrop : ∀ x, drop 14 (("# Bug Report" +:+ nl +:+ nl) +:+ x) = x)
      by reflexivity.
    rewrite Hdrop. clear Hdrop.
    generalize ("# Bug Report" +:+ nl +:+ nl). intros title.
    rewrite foldr_app, string_app_assoc.
    apply (f_equal (String.append title)).
    induction l1 as [|v l1 IH]; [reflexivity|]. cbn [foldr].
    by rewrite string_app_assoc, IH.
  - reflexivity.
  - intros v Hv. apply contains_app_r.
    induction l1 as [|w l1 IH]; [by apply elem_of_nil in Hv|].
    cbn [foldr]. apply elem_of_cons in Hv as [->|Hv].
    + apply contains_here.
    + by apply contains_app_r, IH.
Qed.

(** ** The URL analyzer and its endpoint *)

(** X18. [analyze_url] returns no finding exactly when the URL is valid,
    the request succeeds, the response has all four tracked headers and
    the URL does not start with [http://]. *)
Theorem analyze_url_clean (validators_url : string → bool)
    (requests_get : string → outcome) (url : string) :
  (analyze_url validators_url requests_get url).2 = Returns []
  ↔ validators_url url = true
    ∧ startswith url "http://" = false
    ∧ ∃ headers, requests_get url = Response headers
                 ∧ ∀ header, header ∈ tracked_headers →
                     header_in header headers = true.
Proof.
  unfold analyze_url, tracked_headers.
  destruct (validators_url url); cbn [negb snd].
  - destruct (requests_get url) as [headers| |e|e]; cbn [snd].
    + unfold security_headers. cbn [foldl].
      destruct (startswith url "http://");
        destruct (header_in "Strict-Transport-Security" headers) eqn:H1,
          (header_in "X-Content-Type-Options" headers) eqn:H2,
          (header_in "X-Frame-Options" headers) eqn:H3,
          (header_in "Content-Security-Policy" headers) eqn:H4;
        cbn [negb app]; (split; [try discriminate|]).
      all: try (intros _; split_and!; [done..|]; exists headers; split; [done|];
                intros header Hin; rewrite !elem_of_cons, elem_of_nil in Hin;
                by destruct Hin as [->|[->|[->|[->|[]]]]]).
      all: intros (_ & Hs & headers' & [= <-] & Hall); try discriminate Hs.
      all: try (rewrite Hall in H1 by (rewrite !elem_of_cons; auto); discriminate H1).
      all: try (rewrite Hall in H2 by (rewrite !elem_of_cons; auto); discriminate H2).
      all: try (rewrite Hall in H3 by (rewrite !elem_of_cons; auto); discriminate H3).
      all: try (rewrite Hall in H4 by (rewrite !elem_of_cons; auto); discriminate H4).
      all: done.
    + split; [discriminate|]. by intros (_ & _ & ? & ? & _).
    + split; [discriminate|]. by intros (_ & _ & ? & ? & _).
    + split; [discriminate|]. by intros (_ & _ & ? & ? & _).
  - split; [discriminate|]. by intros (? & _).
Qed.

(** X19. [scan_url] answers with status 500 exactly when the URL is valid
    and the request raises something that is no exception of [requests];
    the detail is the text of that exception.  An invalid URL and a failed
    connection are answered with status 200. *)
Theorem scan_url_status (validators_url : string → bool)
    (requests_get : string → outcome) (url detail : string) :
  scan_url validators_url requests_get url = Error500 detail
  ↔ validators_url url = true ∧ requests_get url = OtherException detail.
Proof.
  unfold scan_url, analyze_url.
  destruct (validators_url url); cbn [negb snd].
  - destruct (requests_get url) as [headers| |e|e]; cbn [snd].
    + destruct (startswith url "http://"); split; try discriminate;
        by intros [_ ?].
    + split; [discriminate|by intros [_ ?]].
    + split; [discriminate|by intros [_ ?]].
    + split; [by intros [= ->]|by intros [_ [= ->]]].
  - split; [discriminate|by intros [? _]].
Qed.
